(** * IPO Intelligence Alpha: the enrichment pipeline of [app.py]

    A shallow embedding of the pure parts of [src/app.py] (price formatting,
    valuation multiples, sector medians, the filing traversal with its lockup
    parser, the red-flag scan, the sector-outlook lookup, the implied market
    capitalisation, the underwriter score and the candidate de-duplication),
    followed by the properties the specification states about them.

    Conventions of the embedding.
    - A Python [str] is a [string]; the text functions ([str.lower], [len],
      [in], the [re] classes) are modelled on ASCII text.
    - A Python number is a [num]: an [int] carries a [Z], a [float] is
      idealised as an exact rational [Q]; [round(x, 2)] is rounding half to
      even on that rational.
    - [None] is the [None] of [option]; truthiness ([if x:], [x or y]) is
      written out by [truthy_*] functions.
    - An exception is a value of the [result] type.
    - The fields of a calendar row carry the types of the data model: a
      price or a bound is an optional number, a share count an optional
      number or a formatted string.  The answers of the providers are
      arguments of the functions that fetch them in the source. *)

From Stdlib Require Import Bool Arith ZArith QArith Qround Lia Lqa List.
From Stdlib Require Import Ascii String DecimalString.
From Stdlib Require Import Permutation Sorted.
Import ListNotations.

Local Close Scope Q_scope.
Local Open Scope list_scope.
Local Open Scope string_scope.

(* ================================================================== *)
(** ** Text primitives *)
(* ================================================================== *)

Module Text.

Definition is_upper (c : ascii) : bool :=
  let n := nat_of_ascii c in (65 <=? n)%nat && (n <=? 90)%nat.

Definition is_digit (c : ascii) : bool :=
  let n := nat_of_ascii c in (48 <=? n)%nat && (n <=? 57)%nat.

(** [\s] on ASCII text: tab, LF, VT, FF, CR, the four separators
    0x1c..0x1f, and the space. *)
Definition is_space (c : ascii) : bool :=
  let n := nat_of_ascii c in
  ((9 <=? n)%nat && (n <=? 13)%nat) || ((28 <=? n)%nat && (n <=? 32)%nat).

Definition is_alpha (c : ascii) : bool :=
  let n := nat_of_ascii c in
  ((65 <=? n)%nat && (n <=? 90)%nat) || ((97 <=? n)%nat && (n <=? 122)%nat).

Definition lower_char (c : ascii) : ascii :=
  if is_upper c then ascii_of_nat (nat_of_ascii c + 32) else c.

(** [s.lower()] *)
Fixpoint lower (s : string) : string :=
  match s with
  | EmptyString => EmptyString
  | String c s' => String (lower_char c) (lower s')
  end.

(** [s.startswith(p)] *)
Definition startswith (s p : string) : bool := String.prefix p s.

(** [needle in hay] on strings: the leftmost scan for an occurrence. *)
Fixpoint str_in (needle hay : string) : bool :=
  if String.prefix needle hay then true
  else match hay with
       | EmptyString => false
       | String _ hay' => str_in needle hay'
       end.

(** [needle] occurs in [hay] up to the case of letters. *)
Definition occurs_ci (needle hay : string) : Prop :=
  exists pre mid post,
    hay = pre ++ mid ++ post /\ lower mid = lower needle.

(** [str(n)] of a Python [int]. *)
Definition str_int (z : Z) : string := NilZero.string_of_int (Z.to_int z).





(** Truthiness of a string: non-emptiness. *)
Definition truthy_str (s : string) : bool :=
  match s with EmptyString => false | _ => true end.

End Text.

(* ================================================================== *)
(** ** Exceptions *)
(* ================================================================== *)

(** The one exception the embedded code can raise. *)
Inductive exn : Type :=
| TypeError.

Inductive result (A : Type) : Type :=
| Ok (a : A)
| Raise (e : exn).

Arguments Ok {A} a.
Arguments Raise {A} e.

Definition bind {A B : Type} (m : result A) (k : A -> result B) : result B :=
  match m with
  | Ok a => k a
  | Raise e => Raise e
  end.

Notation "x <- m ;; k" := (bind m (fun x => k))
  (at level 61, m at next level, right associativity).

(* ================================================================== *)
(** ** The [re] fragment used by the source *)
(* ================================================================== *)

Module Re.

(** Patterns.  [Lit] compares up to case: every pattern of the source
    that is embedded here is compiled with [re.I]. *)
Inductive regex : Type :=
| Lit (c : ascii)
| Class (p : ascii -> bool)
| Cat (r1 r2 : regex)
| Alt (r1 r2 : regex)
| Rep (r : regex) (lo : nat) (hi : option nat)
| Group (i : nat) (r : regex).

Fixpoint lit (s : string) : regex :=
  match s with
  | EmptyString => Rep (Class (fun _ => true)) 0 (Some 0)
  | String c EmptyString => Lit c
  | String c s' => Cat (Lit c) (lit s')
  end.

Definition groups : Type := list (nat * string).

Fixpoint group (g : groups) (i : nat) : option string :=
  match g with
  | [] => None
  | (j, s) :: g' => if Nat.eqb i j then Some s else group g' i
  end.

(** The part of [s] consumed when the rest is [s']. *)
Definition consumed (s s' : string) : string :=
  String.substring 0 (String.length s - String.length s') s.

(** Backtracking matcher in continuation-passing style: greedy
    repetition tries one more iteration before giving back, alternation
    tries its left branch first. *)
Fixpoint rmatch (r : regex) (s : string) (g : groups)
         (k : string -> groups -> option groups) {struct r} : option groups :=
  match r with
  | Lit c =>
      match s with
      | String c' s' =>
          if Ascii.eqb (Text.lower_char c) (Text.lower_char c') then k s' g else None
      | EmptyString => None
      end
  | Class p =>
      match s with
      | String c' s' => if p c' then k s' g else None
      | EmptyString => None
      end
  | Cat r1 r2 => rmatch r1 s g (fun s' g' => rmatch r2 s' g' k)
  | Alt r1 r2 =>
      match rmatch r1 s g k with
      | Some m => Some m
      | None => rmatch r2 s g k
      end
  | Rep r1 lo hi =>
      (* at most [hi] iterations; without a bound, one per character left *)
      let budget := match hi with Some h => h | None => String.length s end in
      (fix rep (budget lo : nat) (s : string) (g : groups) {struct budget}
         : option groups :=
         match budget with
         | O => if Nat.eqb lo 0 then k s g else None
         | S budget' =>
             match rmatch r1 s g (fun s' g' => rep budget' (pred lo) s' g') with
             | Some m => Some m
             | None => if Nat.eqb lo 0 then k s g else None
             end
         end) budget lo s g
  | Group i r1 =>
      rmatch r1 s g (fun s' g' => k s' ((i, consumed s s') :: g'))
  end.

Definition match_at (r : regex) (s : string) : option groups :=
  rmatch r s [] (fun _ g => Some g).

(** [re.search]: the leftmost start position that matches. *)
Fixpoint search (r : regex) (s : string) : option groups :=
  match match_at r s with
  | Some g => Some g
  | None =>
      match s with
      | EmptyString => None
      | String _ s' => search r s'
      end
  end.

Definition seq (rs : list regex) : regex :=
  match rs with
  | [] => lit ""
  | r :: rs' => fold_left Cat rs' r
  end.

End Re.

(* ================================================================== *)
(** ** Python values *)
(* ================================================================== *)

(** A Python number: an [int], or a [float] idealised as a rational. *)
Inductive num : Type :=
| NInt (z : Z)
| NFloat (q : Q).

(** [float(n)] *)
Definition py_float (n : num) : Q :=
  match n with
  | NInt z => inject_Z z
  | NFloat q => q
  end.

(** Truthiness of a number: non-zero. *)
Definition truthy_num (n : num) : bool := negb (Qeq_bool (py_float n) 0).

(** Truthiness of an optional number: [None] and zero are falsy. *)
Definition truthy_onum (v : option num) : bool :=
  match v with
  | None => false
  | Some n => truthy_num n
  end.

(** Rounding half to even of a rational to an integer. *)
Definition round_half_even (q : Q) : Z :=
  let f := Qfloor q in
  match Qcompare (q - inject_Z f) (1 # 2) with
  | Lt => f
  | Gt => (f + 1)%Z
  | Eq => if Z.even f then f else (f + 1)%Z
  end.

(** [round(x, 2)] *)
Definition round2 (q : Q) : Q :=
  Qred (inject_Z (round_half_even (q * 100)) / 100).

(** The JSON values a provider response is made of.  A map keeps the
    order of its items, as a Python [dict] does. *)
#[warnings="-register-all"]
Inductive json : Type :=
| JNull
| JBool (b : bool)
| JNum (n : num)
| JStr (s : string)
| JList (items : list json)
| JDict (items : list (string * json)).

(** [d.get(key)] on the items of a map. *)
Fixpoint dict_get {V : Type} (items : list (string * V)) (key : string) : option V :=
  match items with
  | [] => None
  | (k, v) :: rest => if String.eqb k key then Some v else dict_get rest key
  end.

Definition truthy_json (v : json) : bool :=
  match v with
  | JNull => false
  | JBool b => b
  | JNum n => truthy_num n
  | JStr s => Text.truthy_str s
  | JList items => match items with [] => false | _ => true end
  | JDict items => match items with [] => false | _ => true end
  end.

(* ================================================================== *)
(** ** Filing signal extraction *)
(* ================================================================== *)

Definition url_keys : list string :=
  ["linkToFilingDetails"; "filingUrl"; "htmlUrl"; "link"].

(** The loop over [url_keys] at the end of the map branch. *)
Fixpoint find_url (items : list (string * json)) (keys : list string) : option string :=
  match keys with
  | [] => None
  | key :: keys' =>
      match dict_get items key with
      | Some (JStr u) => if Text.startswith u "http" then Some u else find_url items keys'
      | _ => find_url items keys'
      end
  end.

(** [recursive_search(obj)] returns the pair [(txt, url)].

    In the map branch a value that is itself a map or a list is searched
    and the pair that comes back is added to the string [txt] with [+=],
    which raises [TypeError]; the list branch unpacks the pair. *)
Fixpoint recursive_search (obj : json) : result (string * option string) :=
  match obj with
  | JDict items =>
      let fix over_items (kvs : list (string * json)) (txt : string) : result string :=
        match kvs with
        | [] => Ok txt
        | (_, v) :: rest =>
            match v with
            | JDict _ | JList _ =>
                _ <- recursive_search v ;; Raise TypeError
            | JStr s =>
                if (40 <? String.length s)%nat
                then over_items rest (txt ++ " " ++ s)
                else over_items rest txt
            | _ => over_items rest txt
            end
        end in
      txt <- over_items items "" ;;
      Ok (txt, find_url items url_keys)
  | JList elems =>
      let fix over_elems (l : list json) (txt : string)
        : result (string * option string) :=
        match l with
        | [] => Ok (txt, None)
        | it :: rest =>
            r <- recursive_search it ;;
            let '(subtxt, url) := r in
            let txt := txt ++ subtxt in
            match url with
            | Some u => if Text.truthy_str u then Ok (txt, Some u) else over_elems rest txt
            | None => over_elems rest txt
            end
        end in
      over_elems elems ""
  | _ => Ok ("", None)
  end.

(** The loop of the map branch by itself: the text collected from the
    items [kvs], starting from [txt]. *)
Fixpoint over_items (kvs : list (string * json)) (txt : string) : result string :=
  match kvs with
  | [] => Ok txt
  | (_, v) :: rest =>
      match v with
      | JDict _ | JList _ =>
          _ <- recursive_search v ;; Raise TypeError
      | JStr s =>
          if (40 <? String.length s)%nat
          then over_items rest (txt ++ " " ++ s)
          else over_items rest txt
      | _ => over_items rest txt
      end
  end.

(** A value that holds other values. *)
Definition is_container (v : json) : bool :=
  match v with
  | JDict _ | JList _ => true
  | _ => false
  end.

(** The loop of the list branch of [recursive_search] by itself: the text
    and the link found in the elements [l], starting from [txt]. *)
Fixpoint over_elems (l : list json) (txt : string) : result (string * option string) :=
  match l with
  | [] => Ok (txt, None)
  | it :: rest =>
      r <- recursive_search it ;;
      let '(subtxt, url) := r in
      let txt := txt ++ subtxt in
      match url with
      | Some u => if Text.truthy_str u then Ok (txt, Some u) else over_elems rest txt
      | None => over_elems rest txt
      end
  end.

(** [r'lock[-\s]?up[^\d]{0,30}(\d{1,4})\s*(days|day|months|month|m)'] *)
Definition lockup_re : Re.regex :=
  Re.seq
    [ Re.lit "lock";
      Re.Rep (Re.Class (fun c => Ascii.eqb c "-" || Text.is_space c)) 0 (Some 1);
      Re.lit "up";
      Re.Rep (Re.Class (fun c => negb (Text.is_digit c))) 0 (Some 30);
      Re.Group 1 (Re.Rep (Re.Class Text.is_digit) 1 (Some 4));
      Re.Rep (Re.Class Text.is_space) 0 None;
      Re.Group 2
        (Re.Alt (Re.lit "days")
           (Re.Alt (Re.lit "day")
              (Re.Alt (Re.lit "months") (Re.Alt (Re.lit "month") (Re.lit "m"))))) ].

(** [r'(\d{2,4})\s*days'] *)
Definition days_re : Re.regex :=
  Re.seq
    [ Re.Group 1 (Re.Rep (Re.Class Text.is_digit) 2 (Some 4));
      Re.Rep (Re.Class Text.is_space) 0 None;
      Re.lit "days" ].

Definition group_or_empty (g : Re.groups) (i : nat) : string :=
  match Re.group g i with
  | Some s => s
  | None => ""
  end.

Definition parse_lockup (text : string) : option string :=
  if negb (Text.truthy_str text) then None
  else
    match Re.search lockup_re text with
    | Some m => Some (group_or_empty m 1 ++ " " ++ group_or_empty m 2)
    | None =>
        match Re.search days_re text with
        | Some m2 => Some (group_or_empty m2 1 ++ " days")
        | None => None
        end
    end.

(** The signals the loop body derives from [s1_extracted]; each starts at
    its default and is assigned inside one [try] block, so an exception
    raised by the traversal leaves every one at its default. *)
Record signals : Type := {
  combined_text : string;
  s1_url : option string;
  lockup : option string
}.

Definition no_signals : signals :=
  {| combined_text := ""; s1_url := None; lockup := None |}.

Definition extract_signals (s1_extracted : json) : signals :=
  if truthy_json s1_extracted then
    match recursive_search s1_extracted with
    | Ok (raw_text, found_url) =>
        {| combined_text := raw_text;
           s1_url := found_url;
           lockup := parse_lockup raw_text |}
    | Raise _ => no_signals
    end
  else no_signals.

(* ================================================================== *)
(** ** Utility functions: number and price formatting *)
(* ================================================================== *)

Section Formatting.

(** [str(x)] of a Python [float] (the shortest decimal that reads back as
    the same double) has no counterpart on rationals: it is a parameter
    of every function that prints a number. *)
Variable str_float : Q -> string.

Definition str_num (n : num) : string :=
  match n with
  | NInt z => Text.str_int z
  | NFloat q => str_float q
  end.

(** [f"{v}"] of an optional number. *)
Definition str_onum (v : option num) : string :=
  match v with
  | None => "None"
  | Some n => str_num n
  end.

Definition format_price (price min_p max_p : option num) : string :=
  if truthy_onum price then "$" ++ str_onum price
  else if truthy_onum min_p && truthy_onum max_p then
    "$" ++ str_onum min_p ++ " – $" ++ str_onum max_p
  else if truthy_onum min_p && negb (truthy_onum max_p) then
    "$" ++ str_onum min_p ++ "+"
  else if truthy_onum max_p && negb (truthy_onum min_p) then
    "Up to $" ++ str_onum max_p
  else "—".

End Formatting.

(* ================================================================== *)
(** ** Valuation multiples and sector medians *)
(* ================================================================== *)

(** A Python [dict] from field names to optional numbers. *)
Definition metrics : Type := list (string * option num).

(** [d.get(key)]: [None] for a missing key and for a null value. *)
Definition get (d : metrics) (key : string) : option num :=
  match dict_get d key with
  | Some v => v
  | None => None
  end.

(** [a or b] *)
Definition py_or (a b : option num) : option num :=
  if truthy_onum a then a else b.

Definition safe_div (a b : option num) : option num :=
  match a, b with
  | Some x, Some y =>
      if Qeq_bool (py_float y) 0 then None
      else Some (NFloat (round2 (py_float x / py_float y)))
  | _, _ => None
  end.

(** The dictionary [compute_multiples] returns, from its four operands. *)
Definition multiples_of (ev revenue ebitda market_cap : option num) : metrics :=
  [ ("EV/Revenue", safe_div ev revenue);
    ("EV/EBITDA", safe_div ev ebitda);
    ("Price/Sales", safe_div market_cap revenue);
    ("MarketCap", market_cap);
    ("RevenueTTM", revenue);
    ("EBITDA", ebitda) ].

(** [compute_multiples], from the two provider answers it fetches: the
    key-metrics record [km] and the enterprise value [ev]. *)
Definition compute_multiples (km : metrics) (ev : option num) : metrics :=
  let revenue := py_or (get km "revenueTTM") (get km "revenue") in
  let ebitda := py_or (get km "ebitda") (get km "ebitdaTTM") in
  let market_cap := py_or (get km "marketCap") (get km "marketCapitalization") in
  multiples_of ev revenue ebitda market_cap.

(** [v for v in vals if v is not None] *)
Fixpoint non_null (vals : list (option num)) : list num :=
  match vals with
  | [] => []
  | None :: rest => non_null rest
  | Some v :: rest => v :: non_null rest
  end.

Definition num_leb (a b : num) : bool := Qle_bool (py_float a) (py_float b).

Fixpoint insert_sorted (x : num) (l : list num) : list num :=
  match l with
  | [] => [x]
  | y :: l' => if num_leb x y then x :: l else y :: insert_sorted x l'
  end.

(** [sorted(l)]: stable, ascending by value. *)
Fixpoint sorted (l : list num) : list num :=
  match l with
  | [] => []
  | x :: l' => insert_sorted x (sorted l')
  end.

(** [round(n, 2)]: an [int] is returned unchanged. *)
Definition py_round2 (n : num) : num :=
  match n with
  | NInt z => NInt z
  | NFloat q => NFloat (round2 q)
  end.

(** [(a + b) / 2]: true division, always a [float]. *)
Definition average (a b : num) : num := NFloat ((py_float a + py_float b) / 2).

Definition median (vals : list (option num)) : option num :=
  let s := sorted (non_null vals) in
  match s with
  | [] => None
  | _ =>
      let n := List.length s in
      let mid := (n / 2)%nat in
      if Nat.eqb (n mod 2) 0
      then Some (py_round2 (average (nth (mid - 1) s (NInt 0)) (nth mid s (NInt 0))))
      else Some (py_round2 (nth mid s (NInt 0)))
  end.

(* ================================================================== *)
(** ** Underwriter credibility and red flags *)
(* ================================================================== *)

Definition TOP_UNDERWRITERS : list string :=
  [ "Goldman Sachs"; "Morgan Stanley"; "J.P. Morgan"; "JPMorgan";
    "Bank of America"; "Barclays"; "Citigroup"; "Citi"; "Credit Suisse";
    "UBS"; "Deutsche Bank" ].

Record credibility : Type := {
  score : string;
  matches : list string
}.

(** [any(t.lower() in u.lower() for t in TOP_UNDERWRITERS)] *)
Definition names_top_underwriter (u : string) : bool :=
  existsb (fun t => Text.str_in (Text.lower t) (Text.lower u)) TOP_UNDERWRITERS.

(** The argument is [None] or a list; both [None] and [[]] are falsy. *)
Definition underwriter_credibility_score (underwriters_list : option (list string))
  : credibility :=
  match underwriters_list with
  | None | Some [] => {| score := "Unknown"; matches := [] |}
  | Some l =>
      let found := filter names_top_underwriter l in
      if (2 <=? List.length found)%nat then {| score := "High"; matches := found |}
      else if Nat.eqb (List.length found) 1 then {| score := "Medium"; matches := found |}
      else {| score := "Low"; matches := l |}
  end.




Section RedFlags.

Variable str_float : Q -> string.




End RedFlags.

(* ================================================================== *)
(** ** Sector outlook *)
(* ================================================================== *)

Record outlook : Type := {
  tam : string;
  cagr : string;
  sources : list (string * string)    (* title, url *)
}.

Definition TAM_CAGR_MAP : list (string * outlook) :=
  [ ("cybersecurity",
     {| tam := "Global cybersecurity market ~200B (2024 est.)";
        cagr := "~12% CAGR to 2030";
        sources := [("Grand View Research",
                     "https://www.grandviewresearch.com/industry-analysis/cyber-security-market")] |});
    ("ai",
     {| tam := "AI software segments vary; generative AI segments show very fast growth";
        cagr := "~30%+ CAGR for some generative AI subsegments";
        sources := [("MarketsandMarkets", "https://www.marketsandmarkets.com/")] |});
    ("biotechnology",
     {| tam := "Broad biotech market >$900B";
        cagr := "~7-10% depending on subsegment";
        sources := [("Fortune Business Insights", "https://www.fortunebusinessinsights.com/")] |});
    ("renewable energy",
     {| tam := "Renewable energy market large and growing";
        cagr := "~8-10% for many subsegments";
        sources := [("IEA", "https://www.iea.org/")] |});
    ("fintech",
     {| tam := "Fintech sizable; payments/lending subsegments large";
        cagr := "~20% for some fintech segments";
        sources := [("Statista", "https://www.statista.com/")] |}) ].

Module Url.

(** The characters [urllib.parse.quote] never escapes, with its default
    [safe='/']. *)
Definition is_safe (c : ascii) : bool :=
  Text.is_alpha c || Text.is_digit c
  || Ascii.eqb c "_" || Ascii.eqb c "." || Ascii.eqb c "-" || Ascii.eqb c "~"
  || Ascii.eqb c "/".

Definition hex_digit (n : nat) : ascii :=
  match String.get n "0123456789ABCDEF" with
  | Some c => c
  | None => "0"%char
  end.

Definition quote_char (c : ascii) : string :=
  if is_safe c then String c ""
  else
    let n := nat_of_ascii c in
    String "%" (String (hex_digit (n / 16)) (String (hex_digit (n mod 16)) "")).

(** [quote(s)]: byte by byte over the UTF-8 encoding. *)
Fixpoint quote (s : string) : string :=
  match s with
  | EmptyString => EmptyString
  | String c s' => quote_char c ++ quote s'
  end.

End Url.

(** [x or ''] on an optional string. *)
Definition str_or_empty (s : option string) : string :=
  match s with
  | Some x => x
  | None => ""
  end.

Definition search_url (sector_or_industry : option string) : string :=
  "https://www.google.com/search?q="
  ++ Url.quote ("market size " ++ str_or_empty sector_or_industry).

Definition fallback_outlook (sector_or_industry : option string) : outlook :=
  {| tam := "No curated TAM available for this sector in the local mapping.";
     cagr := "Unknown";
     sources := [("Search results", search_url sector_or_industry)] |}.

(** The [for k in TAM_CAGR_MAP] loop with its early [return]. *)
Fixpoint first_keyword_in (table : list (string * outlook)) (key : string)
  : option outlook :=
  match table with
  | [] => None
  | (k, entry) :: rest =>
      if Text.str_in k key then Some entry else first_keyword_in rest key
  end.

Definition get_tam_cagr (sector_or_industry : option string) : outlook :=
  let key := Text.lower (str_or_empty sector_or_industry) in
  match first_keyword_in TAM_CAGR_MAP key with
  | Some entry => entry
  | None => fallback_outlook sector_or_industry
  end.

(* ================================================================== *)
(** ** Candidates *)
(* ================================================================== *)

(** The [source] tag the two calendar adapters write into their rows. *)
Inductive provider : Type :=
| FMP
| Finnhub.

(** The share count of a row: absent, a number, or a formatted string. *)
Inductive shares_field : Type :=
| SharesNone
| SharesNum (n : num)
| SharesStr (s : string).

(** One row of the IPO calendar, as [fetch_fmp_ipo] and
    [fetch_finnhub_ipo] build it. *)
Record candidate : Type := {
  source : provider;
  date : option string;
  company : option string;
  symbol : option string;
  exchange : option string;
  price : option num;
  price_min : option num;
  price_max : option num;
  shares : shares_field;
  status : option string;
  deal_type : option string
}.




(** The composite key of the de-duplication:
    [subset=['date','company','symbol','source']]. *)
Definition dedup_key : Type :=
  (option string * option string * option string * provider)%type.

Definition key_of (r : candidate) : dedup_key :=
  (date r, company r, symbol r, source r).

Definition provider_eq_dec (a b : provider) : {a = b} + {a <> b}.
Proof. decide equality. Defined.

Definition ostring_eq_dec (a b : option string) : {a = b} + {a <> b}.
Proof. decide equality. apply string_dec. Defined.

Definition key_eq_dec (a b : dedup_key) : {a = b} + {a <> b}.
Proof.
  decide equality; [apply provider_eq_dec | ].
  decide equality; [apply ostring_eq_dec | ].
  decide equality; apply ostring_eq_dec.
Defined.

(** [DataFrame.drop_duplicates(subset=..., keep='first')] of pandas, as the
    library documents it: the rows are scanned in order and a row is
    dropped when a row with the same key came before it.  [seen] holds the
    keys met so far. *)
Fixpoint drop_duplicates_from (seen : list dedup_key) (rows : list candidate)
  : list candidate :=
  match rows with
  | [] => []
  | r :: rest =>
      if in_dec key_eq_dec (key_of r) seen
      then drop_duplicates_from seen rest
      else r :: drop_duplicates_from (key_of r :: seen) rest
  end.

Definition drop_duplicates (rows : list candidate) : list candidate :=
  drop_duplicates_from [] rows.

(* ================================================================== *)
(** ** The top-level script *)
(* ================================================================== *)

(** How a run of the script ends: [st.stop()] after the notice, or the
    list [enriched] that the loop over the candidates builds. *)
Inductive outcome (E : Type) : Type :=
| Stopped (notice : string)
| Enriched (records : list E).

Arguments Stopped {E} notice.
Arguments Enriched {E} records.

Definition no_ipos_notice : string :=
  "No IPOs found for the selected window. Try widening the date range.".

Section Script.

(** The body of the enrichment loop calls the providers; it is a
    parameter, and so is [sort_values("date")] of pandas, of which only
    that it rearranges the rows is used. *)
Variable E : Type.
Variable enrich : candidate -> E.
Variable sort_values : list candidate -> list candidate.

(** [rows] is the concatenation of what the two adapters returned. *)
Definition run (rows : list candidate) : outcome E :=
  let df := drop_duplicates rows in
  match df with
  | [] => Stopped no_ipos_notice
  | _ => Enriched (map enrich (sort_values df))
  end.

End Script.

(* ================================================================== *)
(** ** Utility functions: money formatting *)
(* ================================================================== *)

Section Money.

Variable str_float : Q -> string.


End Money.

(* ================================================================== *)
(** ** Utility functions: the logo address *)
(* ================================================================== *)

(** [s.replace(old, new)] for a non-empty [old]: the occurrences are found
    from the left and do not overlap; [skip] counts the characters of an
    occurrence still to pass over. *)
Fixpoint replace_skip (old new : string) (skip : nat) (s : string) : string :=
  match s with
  | EmptyString => EmptyString
  | String c s' =>
      match skip with
      | S k => replace_skip old new k s'
      | O =>
          if String.prefix old s
          then new ++ replace_skip old new (String.length old - 1) s'
          else String c (replace_skip old new 0 s')
      end
  end.

Definition replace (old new s : string) : string := replace_skip old new 0 s.

(** [s.split(sep)[0]] for a separator of one character. *)
Fixpoint first_field (sep : ascii) (s : string) : string :=
  match s with
  | EmptyString => EmptyString
  | String c s' => if Ascii.eqb c sep then EmptyString else String c (first_field sep s')
  end.

Definition clearbit_logo_url (website_or_domain : option string) : option string :=
  match website_or_domain with
  | None => None
  | Some w =>
      if negb (Text.truthy_str w) then None
      else
        let d := first_field "/" (replace "https://" "" (replace "http://" "" w)) in
        Some ("https://logo.clearbit.com/" ++ d)
  end.

(* ================================================================== *)
(** ** Provider answers *)
(* ================================================================== *)

(** What [requests.get] or [requests.post] gives inside a [try]: an
    exception, or an answer with its status code and the body [r.json()]
    returns ([None] when parsing raises). *)
Inductive response : Type :=
| Failed
| Answer (status_code : Z) (body : option json).

(** The value found for a key, or [default]. *)
Definition value_or (default : json) (v : option json) : json :=
  match v with
  | Some x => x
  | None => default
  end.

(** [obj.get(key, default)]: the value of a map at [key], [default] for a
    missing key; any other object has no [get] and the call raises, which
    is the [None] of the result. *)
Definition py_get_default (obj : json) (key : string) (default : json) : option json :=
  match obj with
  | JDict items => Some (value_or default (dict_get items key))
  | _ => None
  end.

(** [obj.get(key)]: the default is [None], that is [JNull]. *)
Definition py_get (obj : json) (key : string) : option json :=
  py_get_default obj key JNull.

(** [a or b] on values. *)
Definition json_or (a b : json) : json := if truthy_json a then a else b.

Fixpoint chars_of (s : string) : list json :=
  match s with
  | EmptyString => []
  | String c s' => JStr (String c EmptyString) :: chars_of s'
  end.

(** What [for it in v] goes through: the elements of a list, the keys of a
    map, the characters of a string; anything else raises. *)
Definition py_iter (v : json) : option (list json) :=
  match v with
  | JList elems => Some elems
  | JDict items => Some (map (fun kv => JStr (fst kv)) items)
  | JStr s => Some (chars_of s)
  | _ => None
  end.

(** A loop that appends [f it] for each [it], and raises as soon as one
    [f it] raises. *)
Fixpoint for_each {A B : Type} (f : A -> option B) (l : list A) : option (list B) :=
  match l with
  | [] => Some []
  | x :: l' =>
      match f x with
      | Some y =>
          match for_each f l' with
          | Some ys => Some (y :: ys)
          | None => None
          end
      | None => None
      end
  end.

(** A row as the adapters build it: a [dict] literal, its items in the
    order written. *)
Definition raw_row : Type := list (string * json).

(** The row [fetch_fmp_ipo] builds from one item of the calendar. *)
Definition fmp_row (it : json) : option raw_row :=
  match py_get it "date", py_get it "company", py_get it "symbol",
        py_get it "exchange", py_get it "price", py_get it "priceRangeLow",
        py_get it "priceRangeHigh", py_get it "shares", py_get it "status",
        py_get it "dealType" with
  | Some d, Some c, Some sy, Some ex, Some p, Some lo, Some hi, Some sh, Some st, Some dt =>
      Some [ ("source", JStr "FMP"); ("date", d); ("company", c); ("symbol", sy);
             ("exchange", ex); ("price", p); ("price_min", lo); ("price_max", hi);
             ("shares", sh); ("status", st); ("deal_type", dt) ]
  | _, _, _, _, _, _, _, _, _, _ => None
  end.

(** [fetch_fmp_ipo], from the answer to its request. *)
Definition fetch_fmp_ipo (answer : response) : list raw_row :=
  match answer with
  | Answer status_code (Some body) =>
      if Z.eqb status_code 200 then
        let data := json_or body (JList []) in
        match py_iter data with
        | Some items =>
            match for_each fmp_row items with
            | Some rows => rows
            | None => []
            end
        | None => []
        end
      else []
  | _ => []
  end.



(** The profile [fetch_company_profile] works on: a [dict] with these
    eight keys, each [None] at first. *)
Module Profile.

Record t : Type := {
  industry : json;
  sector : json;
  website : json;
  description : json;
  country : json;
  exchange : json;
  logo : json;
  cik : json
}.


End Profile.





(* ================================================================== *)
(** ** Underwriters and backers named in the filing text *)
(* ================================================================== *)

Definition is_some {A : Type} (o : option A) : bool :=
  match o with
  | Some _ => true
  | None => false
  end.

(** [\w] on ASCII text. *)
Definition is_word (c : ascii) : bool :=
  Text.is_alpha c || Text.is_digit c || Ascii.eqb c "_".

(** A pattern for the text [s] itself where the pattern is compiled
    without [re.I]: each character matches only itself. *)
Fixpoint exactly (s : string) : Re.regex :=
  match s with
  | EmptyString => Re.lit ""
  | String c EmptyString => Re.Class (Ascii.eqb c)
  | String c s' => Re.Cat (Re.Class (Ascii.eqb c)) (exactly s')
  end.

Fixpoint any_of (rs : list Re.regex) : Re.regex :=
  match rs with
  | [] => Re.Class (fun _ => false)
  | [r] => r
  | r :: rs' => Re.Alt r (any_of rs')
  end.

(** [r'([A-Z][\w\s,&\-\.]{2,80} (?:LLC|Co\.|Inc\.|Bank|Securities|Capital|Bancorp|Corporation|Corp\.|Group))'] *)
Definition uw_re : Re.regex :=
  Re.Group 1
    (Re.seq
       [ Re.Class Text.is_upper;
         Re.Rep
           (Re.Class (fun c => is_word c || Text.is_space c || Ascii.eqb c ","
                               || Ascii.eqb c "&" || Ascii.eqb c "-" || Ascii.eqb c "."))
           2 (Some 80);
         Re.Class (Ascii.eqb " ");
         any_of (map exactly
                   [ "LLC"; "Co."; "Inc."; "Bank"; "Securities"; "Capital"; "Bancorp";
                     "Corporation"; "Corp."; "Group" ]) ]).

(** A match of [r] at the start of [s]: its groups and the text left. *)
Definition match_with_rest (r : Re.regex) (s : string) : option (Re.groups * string) :=
  match Re.rmatch r s [] (fun s' g => Some ((0, s') :: g)) with
  | Some ((_, rest) :: g) => Some (g, rest)
  | _ => None
  end.

(** [re.findall(r, s)] for a pattern with one group that matches no empty
    text: the group of each match, from the left, a match starting where
    the one before ended.  [fuel] bounds the scan by the length left. *)
Fixpoint findall_from (fuel : nat) (r : Re.regex) (s : string) : list string :=
  match fuel with
  | O => []
  | S fuel' =>
      match match_with_rest r s with
      | Some (g, rest) =>
          group_or_empty g 1
          :: (if (String.length rest <? String.length s)%nat
              then findall_from fuel' r rest
              else match s with
                   | EmptyString => []
                   | String _ s' => findall_from fuel' r s'
                   end)
      | None =>
          match s with
          | EmptyString => []
          | String _ s' => findall_from fuel' r s'
          end
      end
  end.

Definition findall (r : Re.regex) (s : string) : list string :=
  findall_from (S (String.length s)) r s.

(** [list(dict.fromkeys(l))]: each text once, at its first place. *)
Fixpoint dedup_from (seen : list string) (l : list string) : list string :=
  match l with
  | [] => []
  | x :: l' =>
      if in_dec string_dec x seen then dedup_from seen l'
      else x :: dedup_from (x :: seen) l'
  end.

(** The underwriters the loop body reads off [combined_text]: the roster
    names found in it, and without any the first six texts of the general
    pattern. *)
Definition underwriters_of (combined_text : string) : list string :=
  let uw_matches := findall uw_re combined_text in
  let uw_detected :=
    filter (fun m => is_some (Re.search (Re.lit m) combined_text)) TOP_UNDERWRITERS in
  match uw_detected with
  | _ :: _ => uw_detected
  | [] =>
      match uw_matches with
      | _ :: _ => firstn 6 (dedup_from [] uw_matches)
      | [] => []
      end
  end.

Definition TOP_VCS : list string :=
  [ "Sequoia"; "Andreessen Horowitz"; "a16z"; "Tiger Global"; "SoftBank"; "Khosla";
    "Benchmark"; "Accel"; "Founders Fund"; "Lightspeed"; "Battery Ventures"; "NEA";
    "Greylock" ].

Definition first_char (s : string) : option ascii :=
  match s with
  | EmptyString => None
  | String c _ => Some c
  end.

Fixpoint last_char (s : string) : option ascii :=
  match s with
  | EmptyString => None
  | String c s' =>
      match last_char s' with
      | Some x => Some x
      | None => Some c
      end
  end.

(** The start of [s] that is [w] up to case, and the text left behind it. *)
Fixpoint split_prefix_ci (w s : string) : option (string * string) :=
  match w with
  | EmptyString => Some (EmptyString, s)
  | String c w' =>
      match s with
      | String c' s' =>
          if Ascii.eqb (Text.lower_char c) (Text.lower_char c') then
            match split_prefix_ci w' s' with
            | Some (m, rest) => Some (String c' m, rest)
            | None => None
            end
          else None
      | EmptyString => None
      end
  end.

(** [\b] between two places of a text, each with its character or none at
    an end of the text: exactly one of them holds a word character. *)
Definition word_boundary (before after : option ascii) : bool :=
  xorb (match before with Some c => is_word c | None => false end)
       (match after with Some c => is_word c | None => false end).

(** [r'\b' + re.escape(w) + r'\b'] matched at the start of [text], whose
    character before is [prev]. *)
Definition word_match_here (prev : option ascii) (w text : string) : bool :=
  match split_prefix_ci w text with
  | Some (m, rest) =>
      word_boundary prev (first_char text)
      && word_boundary (match last_char m with Some c => Some c | None => prev end)
                       (first_char rest)
  | None => false
  end.

(** [re.search(r'\b' + re.escape(w) + r'\b', text, re.I)], as the test it
    is used for: the start positions from the left. *)
Fixpoint word_search_from (prev : option ascii) (w text : string) : bool :=
  word_match_here prev w text
  || match text with
     | EmptyString => false
     | String c text' => word_search_from (Some c) w text'
     end.

Definition word_search (w text : string) : bool := word_search_from None w text.

Fixpoint insert_string (x : string) (l : list string) : list string :=
  match l with
  | [] => [x]
  | y :: l' => if String.leb x y then x :: l else y :: insert_string x l'
  end.

(** [sorted(l)] on strings. *)
Fixpoint sorted_strings (l : list string) : list string :=
  match l with
  | [] => []
  | x :: l' => insert_string x (sorted_strings l')
  end.

(** [detect_vc_backers(text)]; [sorted(set(found))] lists each text of
    [found] once, in ascending order. *)
Definition detect_vc_backers (text : string) : list string :=
  if negb (Text.truthy_str text) then []
  else
    let found :=
      fold_left
        (fun found vc => if word_search vc text then (found ++ [vc])%list else found)
        TOP_VCS [] in
    sorted_strings (dedup_from [] found).

(* ================================================================== *)
(** ** Vocabulary of the statements *)
(* ================================================================== *)

(** [selects P l l']: [l'] lists, in the order of [l], the elements of [l]
    that satisfy [P]. *)
Inductive selects {A : Type} (P : A -> Prop) : list A -> list A -> Prop :=
| selects_nil : selects P [] []
| selects_keep x l l' : P x -> selects P l l' -> selects P (x :: l) (x :: l')
| selects_drop x l l' : ~ P x -> selects P l l' -> selects P (x :: l) l'.

(** A value is present when it is neither [None] nor zero: what the
    source tests with [if v:]. *)
Definition present (v : option num) : Prop :=
  exists n, v = Some n /\ ~ (py_float n == 0)%Q.

(** A ratio [r] of numerator [a] and denominator [b]: unavailable when an
    operand is missing or the denominator is zero, and otherwise the
    quotient rounded to two decimals. *)
Definition ratio_of (r a b : option num) : Prop :=
  (a = None -> r = None)
  /\ (b = None -> r = None)
  /\ (forall y, b = Some y -> (py_float y == 0)%Q -> r = None)
  /\ (forall x y, a = Some x -> b = Some y -> ~ (py_float y == 0)%Q ->
      r = Some (NFloat (round2 (py_float x / py_float y))))
  /\ (forall v, r = Some v ->
      exists x y, a = Some x /\ b = Some y /\ ~ (py_float y == 0)%Q).





(** A row of provider [src] with the given price fields and share count. *)
Definition offering (src : provider) (p lo hi : option num) (sh : shares_field)
  : candidate :=
  {| source := src; date := Some "2025-06-02"; company := Some "Acme Robotics";
     symbol := Some "ACRB"; exchange := Some "NASDAQ";
     price := p; price_min := lo; price_max := hi; shares := sh;
     status := Some "expected"; deal_type := None |}.

(** A formatter for [float]s, for the examples that print none. *)
Definition no_float : Q -> string := fun _ => "".

(** An underwriter entry names a bank of the roster when some roster name
    occurs in it up to case. *)
Definition names_roster_bank (u : string) : Prop :=
  exists t, In t TOP_UNDERWRITERS /\ Text.occurs_ci t u.

(** The input of the example: [{"risk": {"text": "Lockup period of 180 days applies."}}] *)
Definition nested_filing : json :=
  JDict [("risk", JDict [("text", JStr "Lockup period of 180 days applies.")])].


(** Ascending order of numbers by value. *)
Definition num_le (a b : num) : Prop := (py_float a <= py_float b)%Q.

(** [subseq l' l]: [l'] is [l] with some elements left out, the others in
    their order. *)
Inductive subseq {A : Type} : list A -> list A -> Prop :=
| subseq_nil : subseq [] []
| subseq_keep x l' l : subseq l' l -> subseq (x :: l') (x :: l)
| subseq_skip x l' l : subseq l' l -> subseq l' (x :: l).

(** A host name: no slash and no colon in it. *)
Fixpoint host_ok (s : string) : bool :=
  match s with
  | EmptyString => true
  | String c s' => negb (Ascii.eqb c "/") && negb (Ascii.eqb c ":") && host_ok s'
  end.

(** [c] does not occur in [s]. *)
Fixpoint free_of (c : ascii) (s : string) : bool :=
  match s with
  | EmptyString => true
  | String x s' => negb (Ascii.eqb x c) && free_of c s'
  end.

(** What may follow the host in an address: nothing, or a path. *)
Definition path_ok (rest : string) : bool :=
  match rest with
  | EmptyString => true
  | String c _ => Ascii.eqb c "/"
  end.

(** The first slash or colon of [s]. *)
Fixpoint first_delimiter (s : string) : option ascii :=
  match s with
  | EmptyString => None
  | String c s' =>
      if negb (Ascii.eqb c "/") && negb (Ascii.eqb c ":") then first_delimiter s'
      else Some c
  end.

(** The fields of a calendar row, in the order the adapters write them. *)
Definition row_fields : list string :=
  [ "source"; "date"; "company"; "symbol"; "exchange"; "price"; "price_min";
    "price_max"; "shares"; "status"; "deal_type" ].

Definition is_map (v : json) : bool :=
  match v with
  | JDict _ => true
  | _ => false
  end.

(** Which key of an FMP item each field of the row is read from. *)
Definition fmp_field_keys : list (string * string) :=
  [ ("date", "date"); ("company", "company"); ("symbol", "symbol");
    ("exchange", "exchange"); ("price", "price"); ("price_min", "priceRangeLow");
    ("price_max", "priceRangeHigh"); ("shares", "shares"); ("status", "status");
    ("deal_type", "dealType") ].

(** [row] is the FMP row of the item [it]. *)
Definition fmp_row_of (it : json) (row : raw_row) : Prop :=
  is_map it = true
  /\ map fst row = row_fields
  /\ dict_get row "source" = Some (JStr "FMP")
  /\ forall field key, In (field, key) fmp_field_keys ->
                       dict_get row field = py_get it key.



(** A map without a map or a list among its values. *)
Definition flat (items : list (string * json)) : bool :=
  forallb (fun kv => negb (is_container (snd kv))) items.

(** The text a flat map contributes: each of its strings longer than 40
    characters, a space before it, in the order of the items. *)
Fixpoint long_text (items : list (string * json)) : string :=
  match items with
  | [] => ""
  | (_, JStr s) :: rest =>
      (if (40 <? String.length s)%nat then " " ++ s else "") ++ long_text rest
  | _ :: rest => long_text rest
  end.

(** The text left of [s] behind a start that is [m] up to case. *)
Fixpoint strip_prefix_ci (m s : string) : option string :=
  match m with
  | EmptyString => Some s
  | String c m' =>
      match s with
      | String c' s' =>
          if Ascii.eqb (Text.lower_char c) (Text.lower_char c')
          then strip_prefix_ci m' s' else None
      | EmptyString => None
      end
  end.

Section RepRun.

Variable r1 : Re.regex.
Variable k : string -> Re.groups -> option Re.groups.

(** The loop of a repetition in [Re.rmatch] by itself: up to [budget] more
    iterations of [r1], [lo] of them still due, then [k]. *)
Fixpoint rep_run (budget lo : nat) (s : string) (g : Re.groups) : option Re.groups :=
  match budget with
  | O => if Nat.eqb lo 0 then k s g else None
  | S budget' =>
      match Re.rmatch r1 s g (fun s' g' => rep_run budget' (pred lo) s' g') with
      | Some m => Some m
      | None => if Nat.eqb lo 0 then k s g else None
      end
  end.

End RepRun.

(** Every character of [s] passes the test [p]. *)
Fixpoint all_chars (p : ascii -> bool) (s : string) : bool :=
  match s with
  | EmptyString => true
  | String c s' => p c && all_chars p s'
  end.

(** Whether a place of a text holds a word character. *)
Definition opt_word (c : option ascii) : bool :=
  match c with
  | Some x => is_word x
  | None => false
  end.

(** [w] occurs in [text] up to case as a whole word: with no word
    character right before it and none right behind it. *)
Definition whole_word (w text : string) : Prop :=
  exists pre mid post,
    text = pre ++ mid ++ post /\ Text.lower mid = Text.lower w
    /\ opt_word (last_char pre) = false /\ opt_word (first_char post) = false.

(** [w] starts and ends with a word character. *)
Definition word_ended (w : string) : bool :=
  opt_word (first_char w) && opt_word (last_char w).

(** The character before a place of a text that lies [pre] behind a place
    whose character before is [prev]. *)
Definition last_or (prev : option ascii) (pre : string) : option ascii :=
  match last_char pre with
  | Some c => Some c
  | None => prev
  end.

(** The units a lockup is read with. *)
Definition lockup_units : list string := ["days"; "day"; "months"; "month"; "m"].

(** [before] ends with a lockup marker: "lock", at most one hyphen or
    white-space character, "up" (both up to case) and at most thirty
    characters that are no digits. *)
Definition lockup_marker (before : string) : Prop :=
  exists pre lock sep up gap,
    before = pre ++ lock ++ sep ++ up ++ gap
    /\ Text.lower lock = "lock"
    /\ all_chars (fun c => Ascii.eqb c "-" || Text.is_space c) sep = true
    /\ (String.length sep <= 1)%nat
    /\ Text.lower up = "up"
    /\ all_chars (fun c => negb (Text.is_digit c)) gap = true
    /\ (String.length gap <= 30)%nat.

(** Two results of a computation on numbers that are the same but for the
    type of the number: 1 and 1.0 are. *)
Definition same_value (a b : option num) : Prop :=
  match a, b with
  | None, None => True
  | Some x, Some y => (py_float x == py_float y)%Q
  | _, _ => False
  end.

(** The value of a number in lowest terms. *)
Definition canon (x : num) : Q := Qred (py_float x).



(* ================================================================== *)
(** * Properties *)
(* ================================================================== *)

(** ** Text *)

Lemma prefix_iff (p s : string) :
  String.prefix p s = true <-> exists post, s = p ++ post.
Proof.
  revert s; induction p as [| c p IH]; intros s.
  - split; [intros _; now exists s | intros _; now destruct s].
  - destruct s as [| c' s]; simpl.
    + split; [discriminate | intros [post H]; discriminate].
    + destruct (Ascii.ascii_dec c c') as [-> | Hne].
      * rewrite IH. split; intros [post H]; exists post.
        -- now rewrite H.
        -- now injection H.
      * split; [discriminate | intros [post H]; injection H; congruence].
Qed.

Lemma str_in_nil (needle : string) :
  Text.str_in needle "" = String.prefix needle "".
Proof. unfold Text.str_in. now destruct (String.prefix needle ""). Qed.

Lemma str_in_cons (needle : string) (c : ascii) (hay : string) :
  Text.str_in needle (String c hay)
  = if String.prefix needle (String c hay) then true else Text.str_in needle hay.
Proof. reflexivity. Qed.

Lemma str_in_iff (needle hay : string) :
  Text.str_in needle hay = true <-> exists pre post, hay = pre ++ needle ++ post.
Proof.
  induction hay as [| c hay IH].
  - rewrite str_in_nil, prefix_iff. split.
    + intros [post H]. now exists "", post.
    + intros [pre [post H]]. destruct pre; [now exists post | discriminate].
  - rewrite str_in_cons.
    destruct (String.prefix needle (String c hay)) eqn:Hp.
    + apply prefix_iff in Hp. split; [intros _ | reflexivity].
      destruct Hp as [post Hp]. now exists "", post.
    + rewrite IH. split.
      * intros [pre [post H]]. exists (String c pre), post. simpl. now rewrite H.
      * intros [pre [post H]]. destruct pre as [| c' pre].
        -- assert (String.prefix needle (String c hay) = true)
             by (apply prefix_iff; now exists post).
           congruence.
        -- simpl in H. injection H as _ H. now exists pre, post.
Qed.

Lemma lower_app (a b : string) :
  Text.lower (a ++ b) = Text.lower a ++ Text.lower b.
Proof. induction a as [| c a IH]; simpl; [reflexivity | now rewrite IH]. Qed.

Lemma lower_char_idem (c : ascii) :
  Text.lower_char (Text.lower_char c) = Text.lower_char c.
Proof. destruct c as [[] [] [] [] [] [] [] []]; reflexivity. Qed.

Lemma lower_idem (s : string) : Text.lower (Text.lower s) = Text.lower s.
Proof.
  induction s as [| c s IH]; simpl; [reflexivity |].
  now rewrite lower_char_idem, IH.
Qed.

(** A split of the lowered text comes from a split of the text. *)
Lemma lower_split (s a b : string) :
  Text.lower s = a ++ b ->
  exists a' b', s = a' ++ b' /\ Text.lower a' = a /\ Text.lower b' = b.
Proof.
  revert s; induction a as [| c a IH]; intros s H; simpl in H.
  - now exists "", s.
  - destruct s as [| c' s]; simpl in H; [discriminate |].
    injection H as Hc H. destruct (IH _ H) as [a' [b' [-> [Ha Hb]]]].
    exists (String c' a'), b'. simpl. now rewrite Hc, Ha, Hb.
Qed.

(** The test [t.lower() in u.lower()] decides occurrence up to case. *)
Lemma str_in_lower_iff (needle hay : string) :
  Text.str_in (Text.lower needle) (Text.lower hay) = true
  <-> Text.occurs_ci needle hay.
Proof.
  rewrite str_in_iff. split.
  - intros [pre [post H]].
    apply lower_split in H. destruct H as [pre' [rest [-> [_ Hrest]]]].
    apply lower_split in Hrest. destruct Hrest as [mid [post' [-> [Hmid _]]]].
    now exists pre', mid, post'.
  - intros [pre [mid [post [-> Hmid]]]].
    exists (Text.lower pre), (Text.lower post).
    now rewrite !lower_app, Hmid.
Qed.

(** For a needle already in lower case, as the phrase and keyword tables
    are, the test is [needle in hay.lower()]. *)
Lemma str_in_lowered_iff (needle hay : string) :
  Text.lower needle = needle ->
  (Text.str_in needle (Text.lower hay) = true <-> Text.occurs_ci needle hay).
Proof. intros H. rewrite <- H at 1. apply str_in_lower_iff. Qed.

(** ** Ordered selection *)

Lemma selects_filter {A : Type} (P : A -> Prop) (f : A -> bool) (l : list A) :
  (forall x, In x l -> (f x = true <-> P x)) ->
  selects P l (filter f l).
Proof.
  induction l as [| x l IH]; intros Hf; simpl.
  - constructor.
  - assert (Hl : forall y, In y l -> (f y = true <-> P y))
      by (intros y Hy; apply Hf; now right).
    destruct (f x) eqn:Hx.
    + apply selects_keep; [apply Hf; [now left | exact Hx] | now apply IH].
    + apply selects_drop; [| now apply IH].
      intros HP. apply Hf in HP; [congruence | now left].
Qed.

(** The loop that appends [g x] for every [x] passing the test [f]. *)
Lemma fold_left_append_filter {A B : Type} (f : A -> bool) (g : A -> B)
      (l : list A) (acc : list B) :
  fold_left (fun acc x => if f x then (acc ++ [g x])%list else acc) l acc
  = (acc ++ map g (filter f l))%list.
Proof.
  revert acc; induction l as [| x l IH]; intros acc; simpl.
  - now rewrite app_nil_r.
  - rewrite IH. destruct (f x); simpl; [now rewrite <- app_assoc | reflexivity].
Qed.

(** ** Filing signal extraction *)

Lemma recursive_search_dict (items : list (string * json)) :
  recursive_search (JDict items)
  = (txt <- over_items items "" ;; Ok (txt, find_url items url_keys)).
Proof. reflexivity. Qed.




(** The traversal of a map with one string item. *)
Lemma recursive_search_flat (k s : string) :
  recursive_search (JDict [(k, JStr s)])
  = Ok (if (40 <? String.length s)%nat then " " ++ s else "",
        find_url [(k, JStr s)] url_keys).
Proof.
  cbn [recursive_search bind].
  destruct (40 <? String.length s)%nat; reflexivity.
Qed.

Lemma parse_lockup_empty : parse_lockup "" = None.
Proof. reflexivity. Qed.

Lemma truthy_url (items : list (string * json)) (keys : list string) (u : string) :
  find_url items keys = Some u -> Text.truthy_str u = true.
Proof.
  induction keys as [| key keys IH]; simpl; [discriminate |].
  destruct (dict_get items key) as [[| | | s | |] |]; auto.
  unfold Text.startswith.
  destruct (String.prefix "http" s) eqn:Hp; auto.
  intros H; injection H as <-.
  apply prefix_iff in Hp. destruct Hp as [post ->]. reflexivity.
Qed.

(** C1, counterexample: on the nested input of the example the extraction
    finds no lockup at all. *)
Lemma nested_filing_has_no_lockup :
  lockup (extract_signals nested_filing) = None
  /\ lockup (extract_signals nested_filing) <> Some "180 days".
Proof. split; [reflexivity | discriminate]. Qed.

(** C1, as amended: a string value is accumulated exactly when it is longer
    than 40 characters, which the 34 characters of
    ["Lockup period of 180 days applies."] are not.  For a map with one
    string item [s], alone or as the only element of a list, the accumulated
    text is [" " + s] when [s] is longer than 40 characters and empty
    otherwise, and the lockup is the one parsed from that text; on
    ["Lockup period of 180 days applies to all existing holders."] it is
    ["180 days"]. *)
Theorem lockup_of_flat_filing :
  (forall k s,
      let found := extract_signals (JDict [(k, JStr s)]) in
      combined_text found = (if (40 <? String.length s)%nat then " " ++ s else "")
      /\ lockup found = parse_lockup (combined_text found))
  /\ (forall k s,
      let found := extract_signals (JList [JDict [(k, JStr s)]]) in
      combined_text found = (if (40 <? String.length s)%nat then " " ++ s else "")
      /\ lockup found = parse_lockup (combined_text found))
  /\ String.length "Lockup period of 180 days applies." = 34%nat
  /\ lockup (extract_signals
               (JDict [("text", JStr "Lockup period of 180 days applies.")])) = None
  /\ lockup (extract_signals
               (JDict [("text",
                        JStr "Lockup period of 180 days applies to all existing holders.")]))
     = Some "180 days".
Proof.
  split; [| split; [| split; [| split]]].
  - intros k s found. subst found. unfold extract_signals. cbn [truthy_json].
    rewrite recursive_search_flat.
    destruct (40 <? String.length s)%nat; split; reflexivity.
  - intros k s found. subst found. unfold extract_signals. cbn [truthy_json].
    change (recursive_search (JList [JDict [(k, JStr s)]]))
      with (r <- recursive_search (JDict [(k, JStr s)]) ;;
            let '(subtxt, url) := r in
            let txt := "" ++ subtxt in
            match url with
            | Some u => if Text.truthy_str u then Ok (txt, Some u) else Ok (txt, None)
            | None => Ok (txt, None)
            end).
    rewrite recursive_search_flat. cbn [bind].
    destruct (find_url [(k, JStr s)] url_keys) as [u |] eqn:Hu.
    + rewrite (truthy_url _ _ _ Hu).
      destruct (40 <? String.length s)%nat; split; reflexivity.
    + destruct (40 <? String.length s)%nat; split; reflexivity.
  - reflexivity.
  - vm_compute. reflexivity.
  - vm_compute. reflexivity.
Qed.

(** ** Valuation multiples *)

Lemma safe_div_ratio (a b : option num) : ratio_of (safe_div a b) a b.
Proof.
  unfold ratio_of, safe_div.
  split; [| split; [| split; [| split]]].
  - now intros ->.
  - intros ->. now destruct a.
  - intros y -> Hy. destruct a; [| reflexivity].
    apply Qeq_bool_iff in Hy. now rewrite Hy.
  - intros x y -> -> Hy.
    destruct (Qeq_bool (py_float y) 0) eqn:E; [| reflexivity].
    apply Qeq_bool_iff in E. contradiction.
  - intros v. destruct a as [x |], b as [y |]; try discriminate.
    destruct (Qeq_bool (py_float y) 0) eqn:E; [discriminate |].
    intros _. exists x, y. repeat split.
    intros Hy. apply Qeq_bool_iff in Hy. congruence.
Qed.

(** C2: each of the three ratios of [compute_multiples] is unavailable
    when its numerator or its denominator is missing or its denominator is
    zero, is the rounded quotient otherwise, and is therefore present only
    with both operands and a non-zero denominator; [compute_multiples] is a
    total function, and a revenue of zero leaves EV/Revenue unavailable. *)
Theorem compute_multiples_ratios :
  (forall ev revenue ebitda market_cap,
      let m := multiples_of ev revenue ebitda market_cap in
      ratio_of (get m "EV/Revenue") ev revenue
      /\ ratio_of (get m "EV/EBITDA") ev ebitda
      /\ ratio_of (get m "Price/Sales") market_cap revenue)
  /\ (forall km ev,
      compute_multiples km ev
      = multiples_of ev
          (py_or (get km "revenueTTM") (get km "revenue"))
          (py_or (get km "ebitda") (get km "ebitdaTTM"))
          (py_or (get km "marketCap") (get km "marketCapitalization")))
  /\ (forall ev ebitda market_cap,
      get (multiples_of ev (Some (NInt 0)) ebitda market_cap) "EV/Revenue" = None
      /\ get (multiples_of ev (Some (NFloat 0)) ebitda market_cap) "EV/Revenue" = None).
Proof.
  split; [| split].
  - intros ev revenue ebitda market_cap m. subst m.
    repeat split; apply safe_div_ratio.
  - reflexivity.
  - intros ev ebitda market_cap.
    split; cbn; now destruct ev.
Qed.

(** The statement on an enterprise value of 100 and a revenue of 40. *)
Lemma compute_multiples_ratios_witness :
  get (multiples_of (Some (NInt 100)) (Some (NInt 40)) None None) "EV/Revenue"
  = Some (NFloat (round2 (py_float (NInt 100) / py_float (NInt 40)))).
Proof.
  destruct compute_multiples_ratios as (H & _).
  destruct (H (Some (NInt 100)) (Some (NInt 40)) None None) as ((_ & _ & _ & Hq & _) & _).
  apply (Hq (NInt 100) (NInt 40)).
  - reflexivity.
  - reflexivity.
  - intros E. discriminate E.
Defined.

(** ** Sector median *)

Lemma num_leb_le (a b : num) : num_leb a b = true <-> num_le a b.
Proof. apply Qle_bool_iff. Qed.

Lemma num_leb_false (a b : num) : num_leb a b = false -> num_le b a.
Proof.
  intros H. unfold num_le. apply Qlt_le_weak, Qnot_le_lt.
  intros Hle. apply num_leb_le in Hle. congruence.
Qed.

Lemma num_le_trans (a b c : num) : num_le a b -> num_le b c -> num_le a c.
Proof. unfold num_le. apply Qle_trans. Qed.

Lemma insert_sorted_perm (x : num) (l : list num) :
  Permutation (x :: l) (insert_sorted x l).
Proof.
  induction l as [| y l IH]; simpl.
  - apply Permutation_refl.
  - destruct (num_leb x y).
    + apply Permutation_refl.
    + apply perm_trans with (y :: x :: l); [apply perm_swap | now apply perm_skip].
Qed.

Lemma sorted_perm (l : list num) : Permutation l (sorted l).
Proof.
  induction l as [| x l IH]; simpl.
  - apply perm_nil.
  - apply perm_trans with (x :: sorted l);
      [now apply perm_skip | apply insert_sorted_perm].
Qed.

Lemma insert_sorted_ordered (x : num) (l : list num) :
  Sorted num_le l -> Sorted num_le (insert_sorted x l).
Proof.
  induction l as [| y l IH]; intros Hs; simpl.
  - repeat constructor.
  - destruct (num_leb x y) eqn:Hxy.
    + constructor; [exact Hs |]. constructor. now apply num_leb_le.
    + inversion Hs as [| ? ? Hl Hhd]; subst.
      constructor; [now apply IH |].
      destruct l as [| z l]; simpl.
      * constructor. now apply num_leb_false.
      * destruct (num_leb x z); constructor.
        -- now apply num_leb_false.
        -- now inversion Hhd.
Qed.

Lemma sorted_ordered (l : list num) : Sorted num_le (sorted l).
Proof.
  induction l as [| x l IH]; simpl.
  - constructor.
  - now apply insert_sorted_ordered.
Qed.

Lemma sorted_strongly_ordered (l : list num) : StronglySorted num_le (sorted l).
Proof.
  apply Sorted_StronglySorted; [| apply sorted_ordered].
  intros a b c. apply num_le_trans.
Qed.

(** [round(x, 2)] gives a number of hundredths back unchanged. *)
Lemma round2_hundredths (z : Z) : (round2 (inject_Z z / 100) == inject_Z z / 100)%Q.
Proof.
  unfold round2. rewrite Qred_correct.
  assert (E : (inject_Z z / 100 * 100 == inject_Z z)%Q) by (field; discriminate).
  unfold round_half_even.
  assert (F : Qfloor (inject_Z z / 100 * 100) = z)
    by (rewrite E; apply Qfloor_Z).
  rewrite F.
  assert (G : (inject_Z z / 100 * 100 - inject_Z z == 0)%Q) by (rewrite E; ring).
  assert (C : Qcompare (inject_Z z / 100 * 100 - inject_Z z) (1 # 2) = Lt).
  { rewrite G. reflexivity. }
  rewrite C. reflexivity.
Qed.

(** C3, counterexample: the median of the single value 1.234 is 1.23, not
    that middle element. *)
Lemma median_rounds_middle_element :
  median [Some (NFloat (1234 # 1000))] = Some (NFloat (123 # 100))
  /\ ~ (123 # 100 == 1234 # 1000)%Q.
Proof. split; [vm_compute; reflexivity | intros H; discriminate H]. Qed.

(** C3, as amended: the median sorts the non-null values ascending; it is
    unavailable when there is none, the middle element rounded to two
    decimals for an odd count (an [int], and a number of hundredths, comes
    back unchanged) and the average of the two middle elements rounded to
    two decimals for an even count; so the median of 10, 20, 30 is 20, that of 10, 20 is 15 and that
    of no value is unavailable. *)
Theorem median_spec (vals : list (option num)) :
  let s := sorted (non_null vals) in
  let n := List.length s in
  Permutation (non_null vals) s
  /\ StronglySorted num_le s
  /\ (n = 0%nat -> median vals = None)
  /\ (n mod 2 = 1%nat ->
      median vals = Some (py_round2 (nth (n / 2) s (NInt 0))))
  /\ ((0 < n)%nat -> n mod 2 = 0%nat ->
      median vals
      = Some (NFloat (round2 ((py_float (nth (n / 2 - 1) s (NInt 0))
                               + py_float (nth (n / 2) s (NInt 0))) / 2))))
  /\ (forall z, py_round2 (NInt z) = NInt z)
  /\ (forall z, (round2 (inject_Z z / 100) == inject_Z z / 100)%Q)
  /\ median [Some (NInt 10); Some (NInt 20); Some (NInt 30)] = Some (NInt 20)
  /\ median [Some (NInt 10); Some (NInt 20)] = Some (NFloat 15)
  /\ median [] = None.
Proof.
  intros s n.
  split; [apply sorted_perm |].
  split; [apply sorted_strongly_ordered |].
  split; [| split; [| split; [| split; [| split; [| split; [| split]]]]]].
  - intros Hn. unfold median. fold s.
    destruct s; [reflexivity | discriminate].
  - intros Hodd. unfold median. fold s. fold n.
    destruct s as [| x s']; [discriminate |].
    rewrite Hodd. reflexivity.
  - intros Hpos Heven. unfold median. fold s. fold n.
    destruct s as [| x s']; [inversion Hpos |].
    rewrite Heven. reflexivity.
  - reflexivity.
  - apply round2_hundredths.
  - vm_compute. reflexivity.
  - vm_compute. reflexivity.
  - reflexivity.
Qed.

(** The amended statement at the two-element example. *)
Lemma median_spec_witness :
  median [Some (NInt 10); Some (NInt 20)]
  = Some (NFloat (round2 ((py_float (NInt 10) + py_float (NInt 20)) / 2))).
Proof.
  destruct (median_spec [Some (NInt 10); Some (NInt 20)])
    as (_ & _ & _ & _ & H & _).
  apply H; [cbn; lia | reflexivity].
Defined.

(** ** Red flags *)





Section RedFlagProperties.

Variable str_float : Q -> string.


End RedFlagProperties.

(** ** Presence of a value *)

Lemma truthy_num_iff (n : num) : truthy_num n = true <-> ~ (py_float n == 0)%Q.
Proof.
  unfold truthy_num. rewrite negb_true_iff. split.
  - intros H E. apply Qeq_bool_iff in E. congruence.
  - intros H. destruct (Qeq_bool (py_float n) 0) eqn:E; [| reflexivity].
    apply Qeq_bool_iff in E. contradiction.
Qed.

Lemma truthy_onum_iff (v : option num) : truthy_onum v = true <-> present v.
Proof.
  unfold present. destruct v as [n |]; simpl.
  - rewrite truthy_num_iff. split.
    + intros H. now exists n.
    + now intros [n' [[= <-] H]].
  - split; [discriminate | intros [n [H _]]; discriminate].
Qed.

Lemma truthy_onum_false (v : option num) : ~ present v -> truthy_onum v = false.
Proof.
  intros H. destruct (truthy_onum v) eqn:E; [| reflexivity].
  apply truthy_onum_iff in E. contradiction.
Qed.

Lemma truthy_onum_true (v : option num) : present v -> truthy_onum v = true.
Proof. apply truthy_onum_iff. Qed.

(** ** Price formatting *)

(** C9, counterexample: with only the high bound present the formatter
    answers "Up to $22", not the dash. *)
Lemma format_price_high_only :
  format_price no_float None None (Some (NInt 22)) = "Up to $22"
  /\ format_price no_float None None (Some (NInt 22)) <> "—".
Proof. split; [reflexivity | discriminate]. Qed.

(** C9, as amended: with "present" meaning neither [None] nor zero, the
    formatter returns the price when it is present; else the low-high range
    when both bounds are present; else the low bound followed by "+" when
    only it is present; else "Up to" and the high bound when only it is
    present; else the dash. *)
Theorem format_price_spec (str_float : Q -> string) (price min_p max_p : option num) :
  (present price ->
   format_price str_float price min_p max_p = "$" ++ str_onum str_float price)
  /\ (~ present price -> present min_p -> present max_p ->
      format_price str_float price min_p max_p
      = "$" ++ str_onum str_float min_p ++ " – $" ++ str_onum str_float max_p)
  /\ (~ present price -> present min_p -> ~ present max_p ->
      format_price str_float price min_p max_p = "$" ++ str_onum str_float min_p ++ "+")
  /\ (~ present price -> ~ present min_p -> present max_p ->
      format_price str_float price min_p max_p = "Up to $" ++ str_onum str_float max_p)
  /\ (~ present price -> ~ present min_p -> ~ present max_p ->
      format_price str_float price min_p max_p = "—").
Proof.
  unfold format_price.
  repeat split; intros;
    repeat match goal with
      | H : present _ |- _ => apply truthy_onum_true in H; rewrite H; clear H
      | H : ~ present _ |- _ => apply truthy_onum_false in H; rewrite H; clear H
      end; reflexivity.
Qed.

(** The amended statement on a range of 18 to 22 without a price. *)
Lemma format_price_spec_witness :
  format_price no_float None (Some (NInt 18)) (Some (NInt 22)) = "$18 – $22".
Proof.
  destruct (format_price_spec no_float None (Some (NInt 18)) (Some (NInt 22)))
    as (_ & H & _).
  apply H.
  - intros [n [E _]]. discriminate E.
  - exists (NInt 18). split; [reflexivity | intros E; discriminate E].
  - exists (NInt 22). split; [reflexivity | intros E; discriminate E].
Defined.

(** ** Implied market capitalisation *)









(** ** Sector outlook *)

Lemma string_app_assoc (a b c : string) : (a ++ b) ++ c = a ++ (b ++ c).
Proof. induction a as [| x a IH]; simpl; [reflexivity | now rewrite IH]. Qed.

Lemma string_app_nil_r (a : string) : a ++ "" = a.
Proof. induction a as [| x a IH]; simpl; [reflexivity | now rewrite IH]. Qed.

(** Quoting works character by character. *)
Lemma quote_app (a b : string) : Url.quote (a ++ b) = Url.quote a ++ Url.quote b.
Proof.
  induction a as [| c a IH]; simpl; [reflexivity |].
  now rewrite IH, string_app_assoc.
Qed.

Lemma keywords_lowered (k : string) (entry : outlook) :
  In (k, entry) TAM_CAGR_MAP -> Text.lower k = k.
Proof.
  unfold TAM_CAGR_MAP. simpl.
  intros H. repeat (destruct H as [[= <- _] | H]; [reflexivity |]). contradiction.
Qed.

Lemma first_keyword_in_found (table pre post : list (string * outlook))
      (k key : string) (entry : outlook) :
  table = (pre ++ (k, entry) :: post)%list ->
  Text.str_in k key = true ->
  (forall k' e', In (k', e') pre -> Text.str_in k' key = false) ->
  first_keyword_in table key = Some entry.
Proof.
  intros -> Hk. induction pre as [| [k0 e0] pre IH]; intros Hpre; simpl.
  - now rewrite Hk.
  - rewrite (Hpre k0 e0) by now left.
    apply IH. intros k' e' Hin. apply (Hpre k' e'). now right.
Qed.

Lemma first_keyword_in_none (table : list (string * outlook)) (key : string) :
  (forall k e, In (k, e) table -> Text.str_in k key = false) ->
  first_keyword_in table key = None.
Proof.
  induction table as [| [k0 e0] table IH]; intros H; simpl; [reflexivity |].
  rewrite (H k0 e0) by now left.
  apply IH. intros k e Hin. apply (H k e). now right.
Qed.

Lemma not_true_false (b : bool) : b <> true -> b = false.
Proof. now destruct b. Qed.

(** C8: the resolver returns the entry of the first keyword of the table,
    in the order cybersecurity, ai, biotechnology, renewable energy,
    fintech, that occurs in the input up to case; when none occurs it
    returns the fallback, whose only source is the search URL ending in the
    percent-encoded input; for "Widgets" that URL ends in "Widgets". *)
Theorem get_tam_cagr_spec (sector_or_industry : option string) :
  (forall pre k entry post,
      TAM_CAGR_MAP = (pre ++ (k, entry) :: post)%list ->
      Text.occurs_ci k (str_or_empty sector_or_industry) ->
      (forall k' e', In (k', e') pre ->
                     ~ Text.occurs_ci k' (str_or_empty sector_or_industry)) ->
      get_tam_cagr sector_or_industry = entry)
  /\ ((forall k e, In (k, e) TAM_CAGR_MAP ->
                   ~ Text.occurs_ci k (str_or_empty sector_or_industry)) ->
      get_tam_cagr sector_or_industry = fallback_outlook sector_or_industry
      /\ sources (get_tam_cagr sector_or_industry)
         = [("Search results",
             "https://www.google.com/search?q=market%20size%20"
             ++ Url.quote (str_or_empty sector_or_industry))])
  /\ map fst TAM_CAGR_MAP
     = ["cybersecurity"; "ai"; "biotechnology"; "renewable energy"; "fintech"]
  /\ sources (get_tam_cagr (Some "Widgets"))
     = [("Search results", "https://www.google.com/search?q=market%20size%20Widgets")].
Proof.
  split; [| split; [| split]].
  - intros pre k entry post Htable Hk Hpre. unfold get_tam_cagr.
    assert (Hin : forall k' e', In (k', e') pre -> In (k', e') TAM_CAGR_MAP)
      by (intros k' e' H; rewrite Htable; apply in_or_app; now left).
    rewrite (first_keyword_in_found _ pre post k _ entry Htable); [reflexivity | |].
    + apply str_in_lowered_iff; [| exact Hk].
      apply (keywords_lowered k entry). rewrite Htable.
      apply in_or_app. right. now left.
    + intros k' e' H. apply not_true_false. intros Habs.
      apply (Hpre k' e' H). apply str_in_lowered_iff in Habs; [exact Habs |].
      apply (keywords_lowered k' e'). now apply Hin.
  - intros Hnone.
    assert (E : get_tam_cagr sector_or_industry = fallback_outlook sector_or_industry).
    { unfold get_tam_cagr. rewrite first_keyword_in_none; [reflexivity |].
      intros k e Hin. apply not_true_false. intros Habs.
      apply (Hnone k e Hin). apply str_in_lowered_iff in Habs; [exact Habs |].
      now apply (keywords_lowered k e). }
    split; [exact E |].
    rewrite E. unfold fallback_outlook, search_url. cbn [sources].
    now rewrite quote_app.
  - reflexivity.
  - vm_compute. reflexivity.
Qed.

(** The first part of the statement on "Enterprise AI Software", which
    contains the second keyword and not the first. *)
Lemma get_tam_cagr_spec_witness :
  cagr (get_tam_cagr (Some "Enterprise AI Software"))
  = "~30%+ CAGR for some generative AI subsegments".
Proof.
  destruct (get_tam_cagr_spec (Some "Enterprise AI Software")) as (H & _).
  rewrite (H [nth 0 TAM_CAGR_MAP ("", fallback_outlook None)]
             "ai"
             (snd (nth 1 TAM_CAGR_MAP ("", fallback_outlook None)))
             (skipn 2 TAM_CAGR_MAP)).
  - reflexivity.
  - reflexivity.
  - apply str_in_lower_iff. vm_compute. reflexivity.
  - intros k' e' [[= <- _] | []] Habs.
    apply str_in_lower_iff in Habs. vm_compute in Habs. discriminate Habs.
Defined.

(** ** Underwriter credibility *)

Lemma names_top_underwriter_iff (u : string) :
  names_top_underwriter u = true <-> names_roster_bank u.
Proof.
  unfold names_top_underwriter, names_roster_bank.
  rewrite existsb_exists.
  split; intros [t [Hin Ht]]; exists t; (split; [exact Hin |]);
    now apply str_in_lower_iff.
Qed.

(** A selection is the filter of any test that decides the property. *)
Lemma selects_is_filter {A : Type} (P : A -> Prop) (f : A -> bool) (l l' : list A) :
  (forall x, f x = true <-> P x) ->
  selects P l l' -> l' = filter f l.
Proof.
  intros Hf Hsel. induction Hsel as [| x l l' HP _ IH | x l l' HP _ IH]; simpl.
  - reflexivity.
  - apply Hf in HP. now rewrite HP, IH.
  - destruct (f x) eqn:E; [apply Hf in E; contradiction | exact IH].
Qed.

(** C10: the score is "Unknown" with no match exactly when the list is
    absent or empty; otherwise, with [found] the entries that name a roster
    bank up to case, it is "High" with [found] for two or more of them,
    "Medium" with [found] for exactly one, and "Low" with the whole input
    list for none. *)
Theorem underwriter_credibility_score_spec (underwriters_list : option (list string)) :
  (underwriters_list = None \/ underwriters_list = Some [] ->
   underwriter_credibility_score underwriters_list
   = {| score := "Unknown"; matches := [] |})
  /\ (score (underwriter_credibility_score underwriters_list) = "Unknown" ->
      underwriters_list = None \/ underwriters_list = Some [])
  /\ (forall l found,
      underwriters_list = Some l -> l <> [] ->
      selects names_roster_bank l found ->
      ((2 <= List.length found)%nat ->
       underwriter_credibility_score underwriters_list
       = {| score := "High"; matches := found |})
      /\ (List.length found = 1%nat ->
          underwriter_credibility_score underwriters_list
          = {| score := "Medium"; matches := found |})
      /\ (List.length found = 0%nat ->
          underwriter_credibility_score underwriters_list
          = {| score := "Low"; matches := l |})).
Proof.
  split; [| split].
  - intros [-> | ->]; reflexivity.
  - destruct underwriters_list as [[| u l] |]; auto.
    unfold underwriter_credibility_score.
    destruct (2 <=? _)%nat; [discriminate |].
    destruct (Nat.eqb _ 1); discriminate.
  - intros l found -> Hne Hsel.
    apply (selects_is_filter _ names_top_underwriter) in Hsel;
      [| apply names_top_underwriter_iff].
    subst found.
    destruct l as [| u l]; [contradiction |].
    unfold underwriter_credibility_score.
    set (found := filter names_top_underwriter (u :: l)).
    split; [| split]; intros Hlen.
    + apply Nat.leb_le in Hlen. now rewrite Hlen.
    + rewrite Hlen. reflexivity.
    + rewrite Hlen. reflexivity.
Qed.

(** The statement on an absent list and on one entry naming a roster bank. *)
Lemma underwriter_credibility_score_spec_witness :
  underwriter_credibility_score None = {| score := "Unknown"; matches := [] |}
  /\ underwriter_credibility_score (Some ["goldman sachs & co. llc"])
     = {| score := "Medium"; matches := ["goldman sachs & co. llc"] |}.
Proof.
  split.
  - destruct (underwriter_credibility_score_spec None) as (H & _).
    apply H. left. reflexivity.
  - destruct (underwriter_credibility_score_spec (Some ["goldman sachs & co. llc"]))
      as (_ & _ & H).
    destruct (H ["goldman sachs & co. llc"] ["goldman sachs & co. llc"])
      as (_ & Hmedium & _).
    + reflexivity.
    + discriminate.
    + apply selects_keep; [| apply selects_nil].
      apply names_top_underwriter_iff. vm_compute. reflexivity.
    + apply Hmedium. reflexivity.
Defined.

(** ** De-duplication of the candidates *)

Section DropDuplicates.

Implicit Types (seen : list dedup_key) (rows out : list candidate) (r : candidate).

(** A kept row is the first of the input with its key, and its key was
    not seen before. *)
Lemma kept_is_first seen rows r :
  In r (drop_duplicates_from seen rows) ->
  ~ In (key_of r) seen
  /\ exists pre post,
      rows = (pre ++ r :: post)%list
      /\ forall x, In x pre -> key_of x <> key_of r.
Proof.
  revert seen; induction rows as [| a rows IH]; intros seen; simpl; [contradiction |].
  destruct (in_dec key_eq_dec (key_of a) seen) as [Hseen | Hnew].
  - intros Hin. destruct (IH _ Hin) as [Hr [pre [post [-> Hpre]]]].
    split; [exact Hr |].
    exists (a :: pre), post. split; [reflexivity |].
    intros x [<- | Hx]; [congruence | now apply Hpre].
  - intros [<- | Hin].
    + split; [exact Hnew |]. exists [], rows. split; [reflexivity | contradiction].
    + destruct (IH _ Hin) as [Hr [pre [post [-> Hpre]]]].
      split; [intros H; apply Hr; now right |].
      exists (a :: pre), post. split; [reflexivity |].
      intros x [<- | Hx]; [| now apply Hpre].
      intros E. apply Hr. left. exact E.
Qed.

Lemma kept_keys_distinct seen rows :
  NoDup (map key_of (drop_duplicates_from seen rows)).
Proof.
  revert seen; induction rows as [| a rows IH]; intros seen; simpl; [constructor |].
  destruct (in_dec key_eq_dec (key_of a) seen) as [Hseen | Hnew]; [apply IH |].
  simpl. constructor; [| apply IH].
  intros Hin. apply in_map_iff in Hin. destruct Hin as [r [Hk Hr]].
  apply kept_is_first in Hr. destruct Hr as [Hr _].
  apply Hr. left. now rewrite Hk.
Qed.



Lemma distinct_rows_unchanged seen rows :
  NoDup (map key_of rows) ->
  (forall r, In r rows -> ~ In (key_of r) seen) ->
  drop_duplicates_from seen rows = rows.
Proof.
  revert seen; induction rows as [| a rows IH]; intros seen Hnd Hseen; simpl;
    [reflexivity |].
  simpl in Hnd. apply NoDup_cons_iff in Hnd. destruct Hnd as [Ha Hnd].
  destruct (in_dec key_eq_dec (key_of a) seen) as [Hin | _].
  - exfalso. apply (Hseen a); [now left | exact Hin].
  - f_equal. apply IH; [exact Hnd |].
    intros r Hr [E | Hin].
    + apply Ha. rewrite E. now apply in_map.
    + apply (Hseen r); [now right | exact Hin].
Qed.

End DropDuplicates.



(** ** The empty window *)

Section ScriptProperties.

Variable E : Type.
Variable enrich : candidate -> E.
Variable sort_values : list candidate -> list candidate.
Hypothesis sort_values_permutes : forall l, Permutation l (sort_values l).

(** C7: when no candidate is left after de-duplication the run stops
    with the notice and builds no list of records; otherwise it builds
    one record for each candidate left, so never an empty list.  A stop
    is thus never the same outcome as a list of records, whatever their
    red flags. *)
Theorem run_empty_window (rows : list candidate) :
  (drop_duplicates rows = [] ->
   run E enrich sort_values rows = Stopped no_ipos_notice
   /\ forall records, run E enrich sort_values rows <> Enriched records)
  /\ (drop_duplicates rows <> [] ->
      exists records,
        run E enrich sort_values rows = Enriched records
        /\ List.length records = List.length (drop_duplicates rows)
        /\ records <> [])
  /\ (drop_duplicates rows = [] <-> rows = []).
Proof.
  unfold run. split; [| split].
  - intros ->. split; [reflexivity | discriminate].
  - intros Hne.
    destruct (drop_duplicates rows) as [| r df] eqn:Hdf; [contradiction |].
    eexists. split; [reflexivity |].
    assert (Hlen : List.length (map enrich (sort_values (r :: df)))
                   = List.length (r :: df)).
    { rewrite length_map. symmetry.
      apply Permutation_length, sort_values_permutes. }
    split; [exact Hlen |].
    intros Hnil. rewrite Hnil in Hlen. discriminate Hlen.
  - split; [| now intros ->].
    destruct rows as [| r rows]; [reflexivity |].
    unfold drop_duplicates. simpl. discriminate.
Qed.

End ScriptProperties.

(** The statement on a window for which the adapters return no row, with
    the identity for the reordering. *)
Lemma run_empty_window_witness :
  run unit (fun _ => tt) (fun l => l) [] = Stopped no_ipos_notice.
Proof.
  destruct (run_empty_window unit (fun _ => tt) (fun l => l)
              (fun l => Permutation_refl l) [])
    as (H & _).
  apply H. reflexivity.
Defined.

(* ================================================================== *)
(** * Further properties of the code *)
(* ================================================================== *)

(** ** De-duplication: order, repetition, providers *)

Lemma drop_duplicates_from_subseq (seen : list dedup_key) (rows : list candidate) :
  subseq (drop_duplicates_from seen rows) rows.
Proof.
  revert seen; induction rows as [| a rows IH]; intros seen; simpl.
  - constructor.
  - destruct (in_dec key_eq_dec (key_of a) seen).
    + apply subseq_skip, IH.
    + apply subseq_keep, IH.
Qed.

(** The keys seen matter only through which keys of the rows they hold. *)
Lemma seen_by_membership (s1 s2 : list dedup_key) (rows : list candidate) :
  (forall k, In k (map key_of rows) -> (In k s1 <-> In k s2)) ->
  drop_duplicates_from s1 rows = drop_duplicates_from s2 rows.
Proof.
  revert s1 s2; induction rows as [| a rows IH]; intros s1 s2 H; simpl; [reflexivity |].
  assert (Ha : In (key_of a) s1 <-> In (key_of a) s2) by (apply H; now left).
  destruct (in_dec key_eq_dec (key_of a) s1) as [H1 | H1],
           (in_dec key_eq_dec (key_of a) s2) as [H2 | H2]; try tauto.
  - apply IH. intros k Hk. apply H. now right.
  - f_equal. apply IH. intros k Hk. simpl.
    specialize (H k (or_intror Hk)). tauto.
Qed.

(** After the rows [a], the keys seen are those seen before and those of [a]. *)
Lemma drop_duplicates_from_app (seen : list dedup_key) (a b : list candidate) :
  exists seen',
    drop_duplicates_from seen (a ++ b)
    = (drop_duplicates_from seen a ++ drop_duplicates_from seen' b)%list
    /\ forall k, In k seen' <-> In k seen \/ In k (map key_of a).
Proof.
  revert seen; induction a as [| x a IH]; intros seen; simpl.
  - exists seen. split; [reflexivity | tauto].
  - destruct (in_dec key_eq_dec (key_of x) seen) as [Hx | Hx].
    + destruct (IH seen) as [seen' [E Hs]]. exists seen'. split; [exact E |].
      intros k. rewrite Hs. split; [tauto |].
      intros [H | [<- | H]]; tauto.
    + destruct (IH (key_of x :: seen)) as [seen' [E Hs]]. exists seen'.
      split; [now rewrite E |].
      intros k. rewrite Hs. simpl. tauto.
Qed.

(** X1: de-duplication only leaves rows out, keeping the others in their
    order, and a second pass over its result changes nothing. *)
Theorem drop_duplicates_idempotent (rows : list candidate) :
  subseq (drop_duplicates rows) rows
  /\ drop_duplicates (drop_duplicates rows) = drop_duplicates rows.
Proof.
  split.
  - apply drop_duplicates_from_subseq.
  - unfold drop_duplicates.
    apply distinct_rows_unchanged; [apply kept_keys_distinct | intros r _ []].
Qed.

(** X2: when the first list holds rows of FMP only and the second rows of
    Finnhub only, as the two adapters return them, de-duplicating their
    concatenation is de-duplicating each list by itself: no row of one
    provider is ever dropped because of a row of the other. *)
Theorem drop_duplicates_by_provider (fmp_rows finnhub_rows : list candidate) :
  (forall r, In r fmp_rows -> source r = FMP) ->
  (forall r, In r finnhub_rows -> source r = Finnhub) ->
  drop_duplicates (fmp_rows ++ finnhub_rows)
  = (drop_duplicates fmp_rows ++ drop_duplicates finnhub_rows)%list.
Proof.
  intros Hfmp Hfin. unfold drop_duplicates.
  destruct (drop_duplicates_from_app [] fmp_rows finnhub_rows) as [seen' [E Hs]].
  rewrite E. f_equal.
  apply seen_by_membership. intros k Hk.
  apply in_map_iff in Hk. destruct Hk as [r [<- Hr]].
  split; [| intros []].
  intros Hin. apply Hs in Hin. destruct Hin as [[] | Hin].
  apply in_map_iff in Hin. destruct Hin as [r' [Hk Hr']].
  apply Hfmp in Hr'. apply Hfin in Hr.
  unfold key_of in Hk. injection Hk as _ _ _ Hsrc. congruence.
Qed.

(** The statement on the same offering listed by both providers. *)
Lemma drop_duplicates_by_provider_witness :
  drop_duplicates
    ([offering FMP (Some (NInt 20)) None None SharesNone]
     ++ [offering Finnhub None (Some (NInt 18)) (Some (NInt 22)) SharesNone])
  = (drop_duplicates [offering FMP (Some (NInt 20)) None None SharesNone]
     ++ drop_duplicates
          [offering Finnhub None (Some (NInt 18)) (Some (NInt 22)) SharesNone])%list.
Proof.
  apply drop_duplicates_by_provider.
  - intros r [<- | []]. reflexivity.
  - intros r [<- | []]. reflexivity.
Defined.

(** ** Rounding *)





(** ** Money formatting *)


(** ** The logo address *)

Lemma replace_skip_cons (old new : string) (c : ascii) (s : string) :
  replace_skip old new 0 (String c s)
  = if String.prefix old (String c s)
    then new ++ replace_skip old new (String.length old - 1) s
    else String c (replace_skip old new 0 s).
Proof. reflexivity. Qed.

Lemma first_field_free (sep : ascii) (s : string) :
  free_of sep (first_field sep s) = true.
Proof.
  induction s as [| c s IH]; simpl; [reflexivity |].
  destruct (Ascii.eqb c sep) eqn:E; simpl; [reflexivity |].
  now rewrite E, IH.
Qed.

Lemma first_field_host (host rest : string) :
  host_ok host = true -> path_ok rest = true ->
  first_field "/" (host ++ rest) = host.
Proof.
  intros Hh Hr. induction host as [| c host IH]; simpl in *.
  - destruct rest as [| c r]; [reflexivity |]. simpl in Hr. simpl. now rewrite Hr.
  - apply andb_prop in Hh. destruct Hh as [Hc Hh].
    apply andb_prop in Hc. destruct Hc as [Hc _].
    apply negb_true_iff in Hc. rewrite Hc. now rewrite IH.
Qed.

Lemma first_delimiter_host (host rest : string) :
  host_ok host = true -> first_delimiter (host ++ rest) = first_delimiter rest.
Proof.
  induction host as [| c host IH]; intros Hh; [reflexivity |].
  simpl in *. apply andb_prop in Hh. destruct Hh as [Hc Hh].
  rewrite Hc. now apply IH.
Qed.

Lemma first_delimiter_path (rest : string) :
  path_ok rest = true -> first_delimiter rest <> Some ":"%char.
Proof.
  destruct rest as [| c rest]; simpl; [discriminate |].
  intros H. apply Ascii.eqb_eq in H. subst c. discriminate.
Qed.

(** Neither scheme starts inside a host, nor across its end: the first
    delimiter of a scheme is its colon, the first one after a host the slash
    of the path. *)
Lemma no_scheme_in_host (c : ascii) (host rest : string) :
  host_ok (String c host) = true -> path_ok rest = true ->
  String.prefix "http://" (String c host ++ rest) = false
  /\ String.prefix "https://" (String c host ++ rest) = false.
Proof.
  intros Hh Hr.
  pose proof (first_delimiter_host _ rest Hh) as Hd.
  pose proof (first_delimiter_path rest Hr) as Hp.
  split; apply not_true_false; intros H; apply prefix_iff in H;
    destruct H as [post H]; rewrite H in Hd; apply Hp; rewrite <- Hd; reflexivity.
Qed.

(** Removing a scheme leaves a host and the start of its path alone. *)
Lemma replace_scheme_host (old host rest : string) :
  old = "http://" \/ old = "https://" ->
  host_ok host = true -> path_ok rest = true ->
  exists rest',
    replace_skip old "" 0 (host ++ rest) = host ++ rest' /\ path_ok rest' = true.
Proof.
  intros Hold Hh Hr. induction host as [| c host IH].
  - destruct rest as [| r0 rest]; [now exists "" |].
    simpl in Hr. apply Ascii.eqb_eq in Hr. subst r0.
    exists (String "/" (replace_skip old "" 0 rest)).
    destruct Hold as [-> | ->]; split; reflexivity.
  - pose proof (no_scheme_in_host c host rest Hh Hr) as [H1 H2].
    simpl in Hh. apply andb_prop in Hh. destruct Hh as [_ Hh].
    destruct (IH Hh) as [rest' [E Hr']].
    exists rest'. split; [| exact Hr'].
    change (String c host ++ rest) with (String c (host ++ rest)) in *.
    rewrite replace_skip_cons.
    destruct Hold as [-> | ->]; [rewrite H1 | rewrite H2]; simpl; now rewrite E.
Qed.

Lemma replace_skip_pass (old new o s : string) :
  replace_skip old new (String.length o) (o ++ s) = replace_skip old new 0 s.
Proof. induction o as [| c o IH]; [reflexivity | exact IH]. Qed.

(** An occurrence at the very start is replaced and the scan goes on
    behind it. *)
Lemma replace_skip_here (a : ascii) (o new s : string) :
  replace_skip (String a o) new 0 (String a o ++ s)
  = new ++ replace_skip (String a o) new 0 s.
Proof.
  change (String a o ++ s) with (String a (o ++ s)).
  rewrite replace_skip_cons.
  assert (H : String.prefix (String a o) (String a (o ++ s)) = true)
    by (apply prefix_iff; now exists s).
  rewrite H. f_equal.
  change (String.length (String a o) - 1)%nat with (String.length o - 0)%nat.
  rewrite Nat.sub_0_r. apply replace_skip_pass.
Qed.

Lemma replace_free (old new s : string) (c : ascii) :
  free_of c old = false -> free_of c s = true -> replace_skip old new 0 s = s.
Proof.
  intros Hold. induction s as [| x s IH]; intros Hs; [reflexivity |].
  rewrite replace_skip_cons.
  destruct (String.prefix old (String x s)) eqn:Hp.
  - exfalso. apply prefix_iff in Hp. destruct Hp as [post Hp].
    rewrite Hp in Hs. clear - Hold Hs.
    induction old as [| y old IH]; simpl in *; [discriminate |].
    destruct (Ascii.eqb y c); simpl in *; [discriminate | auto].
  - simpl in Hs. apply andb_prop in Hs. destruct Hs as [_ Hs]. now rewrite IH.
Qed.

(** X4: the logo address is absent for an absent or empty website;
    otherwise it is the fixed base followed by a name that holds no slash.
    For a website made of a host (no slash, no colon), with or without an
    [http://] or [https://] scheme in front and with or without a path
    behind, that name is the host. *)
Theorem clearbit_logo_url_host :
  clearbit_logo_url None = None
  /\ clearbit_logo_url (Some "") = None
  /\ (forall w, w <> "" ->
        exists d, clearbit_logo_url (Some w) = Some ("https://logo.clearbit.com/" ++ d)
                  /\ free_of "/" d = true)
  /\ (forall host rest,
        host_ok host = true -> path_ok rest = true ->
        clearbit_logo_url (Some ("https://" ++ host ++ rest))
        = Some ("https://logo.clearbit.com/" ++ host)
        /\ clearbit_logo_url (Some ("http://" ++ host ++ rest))
           = Some ("https://logo.clearbit.com/" ++ host)
        /\ (host ++ rest <> "" ->
            clearbit_logo_url (Some (host ++ rest))
            = Some ("https://logo.clearbit.com/" ++ host))).
Proof.
  split; [reflexivity |]. split; [reflexivity |]. split.
  - intros w Hw. destruct w as [| c w]; [contradiction |].
    eexists. split; [reflexivity | apply first_field_free].
  - intros host rest Hh Hr.
    destruct (replace_scheme_host "http://" host rest (or_introl eq_refl) Hh Hr)
      as [r1 [E1 Hr1]].
    destruct (replace_scheme_host "https://" host r1 (or_intror eq_refl) Hh Hr1)
      as [r2 [E2 Hr2]].
    destruct (replace_scheme_host "https://" host rest (or_intror eq_refl) Hh Hr)
      as [r3 [E3 Hr3]].
    split; [| split].
    + unfold clearbit_logo_url, replace. cbn [Text.truthy_str negb append].
      change (replace_skip "http://" "" 0 (String "h" (String "t" (String "t"
                (String "p" (String "s" (String ":" (String "/" (String "/"
                (host ++ rest))))))))))
        with ("https://" ++ replace_skip "http://" "" 0 (host ++ rest)).
      rewrite E1.
      rewrite (replace_skip_here "h" "ttps://" "" (host ++ r1)).
      cbn [append]. rewrite E2. now rewrite first_field_host.
    + unfold clearbit_logo_url, replace. cbn [Text.truthy_str negb append].
      change (String "h" (String "t" (String "t" (String "p" (String ":"
                (String "/" (String "/" (host ++ rest))))))))
        with ("http://" ++ (host ++ rest)).
      rewrite (replace_skip_here "h" "ttp://" "" (host ++ rest)).
      cbn [append]. rewrite E1, E2. now rewrite first_field_host.
    + intros Hne. unfold clearbit_logo_url, replace.
      assert (Ht : Text.truthy_str (host ++ rest) = true)
        by (destruct (host ++ rest); [contradiction | reflexivity]).
      rewrite Ht. cbn [negb].
      rewrite E1, E2. now rewrite first_field_host.
Qed.

(** The statement on the address of a company page. *)
Lemma clearbit_logo_url_host_witness :
  clearbit_logo_url (Some ("https://" ++ "www.acme-robotics.com" ++ "/about/team"))
  = Some ("https://logo.clearbit.com/" ++ "www.acme-robotics.com").
Proof.
  destruct clearbit_logo_url_host as (_ & _ & _ & H).
  destruct (H "www.acme-robotics.com" "/about/team") as (Hhttps & _).
  - reflexivity.
  - reflexivity.
  - exact Hhttps.
Defined.

(** ** The calendar adapters *)

Lemma for_each_some {A B : Type} (f : A -> option B) (l : list A) (ys : list B) :
  for_each f l = Some ys -> Forall2 (fun x y => f x = Some y) l ys.
Proof.
  revert ys; induction l as [| x l IH]; intros ys; simpl.
  - intros [= <-]. constructor.
  - destruct (f x) as [y |] eqn:Ex; [| discriminate].
    destruct (for_each f l) as [ys' |]; [| discriminate].
    intros [= <-]. constructor; [exact Ex | now apply IH].
Qed.

Lemma for_each_none {A B : Type} (f : A -> option B) (l : list A) :
  (exists x, In x l /\ f x = None) -> for_each f l = None.
Proof.
  intros [x [Hin Hx]]. induction l as [| a l IH]; [contradiction |].
  simpl. destruct Hin as [-> | Hin]; [now rewrite Hx |].
  destruct (f a); [| reflexivity]. now rewrite IH.
Qed.

Lemma fmp_row_spec (it : json) (row : raw_row) :
  fmp_row it = Some row -> fmp_row_of it row.
Proof.
  destruct it as [| b | n | s | l | items]; try discriminate.
  cbn. intros [= <-]. unfold fmp_row_of.
  split; [reflexivity |]. split; [reflexivity |]. split; [reflexivity |].
  intros field key Hin. unfold fmp_field_keys in Hin. simpl in Hin.
  repeat (destruct Hin as [[= <- <-] | Hin]; [reflexivity |]). contradiction.
Qed.

Lemma fmp_row_not_map (it : json) : is_map it = false -> fmp_row it = None.
Proof. destruct it; try reflexivity. discriminate. Qed.



Lemma chars_not_maps (s : string) (x : json) : In x (chars_of s) -> is_map x = false.
Proof.
  induction s as [| c s IH]; simpl; [contradiction |].
  intros [<- | H]; [reflexivity | now apply IH].
Qed.

(** What the loop of an adapter gives for what it iterates: all the rows,
    or none when one item is no map. *)
Lemma adapter_loop (row_of : json -> option raw_row) (spec : json -> raw_row -> Prop)
      (data : json) :
  (forall it row, row_of it = Some row -> spec it row) ->
  (forall it, is_map it = false -> row_of it = None) ->
  let rows := match py_iter data with
              | Some items =>
                  match for_each row_of items with
                  | Some rows => rows
                  | None => []
                  end
              | None => []
              end in
  (rows <> [] -> exists items, data = JList items /\ Forall2 spec items rows)
  /\ (forall items, data = JList items -> existsb (fun it => negb (is_map it)) items = true ->
      rows = []).
Proof.
  intros Hspec Hnot rows. subst rows. split.
  - destruct data as [| b | n | s | l | items]; cbn [py_iter]; try contradiction.
    + intros Hne. exfalso. apply Hne.
      destruct s as [| c s]; [reflexivity |].
      rewrite for_each_none; [reflexivity |].
      exists (JStr (String c EmptyString)). split; [now left | now apply Hnot].
    + intros Hne. exists l. split; [reflexivity |].
      destruct (for_each row_of l) as [rows |] eqn:E; [| contradiction].
      apply for_each_some in E.
      revert E. apply Forall2_impl. exact Hspec.
    + intros Hne. exfalso. apply Hne.
      destruct items as [| kv items]; [reflexivity |].
      rewrite for_each_none; [reflexivity |].
      exists (JStr (fst kv)). split; [now left | now apply Hnot].
  - intros items -> Hex. cbn [py_iter].
    apply existsb_exists in Hex. destruct Hex as [it [Hin Hit]].
    rewrite for_each_none; [reflexivity |].
    exists it. split; [exact Hin |]. apply Hnot.
    now apply negb_true_iff in Hit.
Qed.

(** X5: the FMP adapter returns all the rows or none.  A result that is
    not empty comes from an answer of status 200 whose body is a list of
    maps, and holds for each item, in order, one row with the eleven fields,
    the source "FMP" and the item's values under the adapter's field names
    (a missing one is [None]); one item that is no map empties the whole
    result. *)
Theorem fetch_fmp_ipo_all_or_nothing (answer : response) :
  (fetch_fmp_ipo answer <> [] ->
   exists items,
     answer = Answer 200 (Some (JList items))
     /\ Forall2 fmp_row_of items (fetch_fmp_ipo answer))
  /\ (forall items,
      answer = Answer 200 (Some (JList items)) ->
      existsb (fun it => negb (is_map it)) items = true ->
      fetch_fmp_ipo answer = []).
Proof.
  destruct answer as [| code [body |]];
    try (split; [intros H; now contradiction H | reflexivity]).
  unfold fetch_fmp_ipo.
  destruct (Z.eqb_spec code 200) as [-> | Hcode].
  - pose proof (adapter_loop fmp_row fmp_row_of (json_or body (JList []))
                  fmp_row_spec fmp_row_not_map) as [H1 H2].
    cbv zeta in *. split.
    + intros Hne.
      destruct (H1 Hne) as [items [Hd HF]].
      unfold json_or in Hd. destruct (truthy_json body) eqn:Ht.
      * exists items. subst body. split; [reflexivity | exact HF].
      * exfalso. unfold json_or in Hne. rewrite Ht in Hne. apply Hne. reflexivity.
    + intros items [= ->] Hex.
      apply (H2 items); [| exact Hex].
      unfold json_or. destruct items; [discriminate Hex | reflexivity].
  - split.
    + intros Hne. now contradiction Hne.
    + intros items [= E]. contradiction.
Qed.



(** ** Company profile and filing answer *)







(** ** The traversal of a filing answer *)

(** Induction on values, through the lists and maps. *)
Lemma json_induction (P : json -> Prop) :
  P JNull ->
  (forall b, P (JBool b)) ->
  (forall n, P (JNum n)) ->
  (forall s, P (JStr s)) ->
  (forall l, Forall P l -> P (JList l)) ->
  (forall items, Forall (fun kv => P (snd kv)) items -> P (JDict items)) ->
  forall v, P v.
Proof.
  intros HNull HBool HNum HStr HList HDict.
  fix IH 1. intros [| b | n | s | l | items].
  - exact HNull.
  - apply HBool.
  - apply HNum.
  - apply HStr.
  - apply HList. induction l as [| x l IHl]; constructor; [apply IH | exact IHl].
  - apply HDict. induction items as [| [k v] items IHi]; constructor;
      [apply IH | exact IHi].
Qed.

Lemma recursive_search_list (l : list json) :
  recursive_search (JList l) = over_elems l "".
Proof. reflexivity. Qed.

Lemma find_url_http (items : list (string * json)) (keys : list string) (u : string) :
  find_url items keys = Some u -> Text.startswith u "http" = true.
Proof.
  induction keys as [| key keys IH]; simpl; [discriminate |].
  destruct (dict_get items key) as [[| | | s | |] |]; auto.
  destruct (Text.startswith s "http") eqn:Hp; auto.
  now intros [= <-].
Qed.

(** X9: whatever the value searched, a link that the traversal returns
    starts with "http". *)
Theorem recursive_search_link_scheme (obj : json) :
  forall txt u,
    recursive_search obj = Ok (txt, Some u) -> Text.startswith u "http" = true.
Proof.
  induction obj as [| b | n | s | l IHl | items _] using json_induction;
    intros txt u; try discriminate.
  - rewrite recursive_search_list.
    assert (H : forall acc, over_elems l acc = Ok (txt, Some u) ->
                            Text.startswith u "http" = true); [| apply H].
    induction IHl as [| x l Hx _ IH]; intros acc; simpl; [discriminate |].
    destruct (recursive_search x) as [[sub [u' |]] | e] eqn:Ex; cbn [bind];
      try discriminate.
    + destruct (Text.truthy_str u').
      * intros [= _ <-]. exact (Hx _ _ eq_refl).
      * apply IH.
    + apply IH.
  - rewrite recursive_search_dict.
    destruct (over_items items "") as [t | e]; cbn [bind]; [| discriminate].
    intros H.
    assert (Hu : find_url items url_keys = Some u) by congruence.
    now apply find_url_http in Hu.
Qed.

Lemma recursive_search_link_scheme_witness :
  recursive_search
    (JList [JDict [("note", JStr "short")];
            JDict [("htmlUrl", JStr "ftp://sec.example/s1");
                   ("link", JStr "https://sec.example/s1")]])
  = Ok ("", Some "https://sec.example/s1")
  /\ Text.startswith "https://sec.example/s1" "http" = true.
Proof.
  split; [vm_compute; reflexivity |].
  apply (recursive_search_link_scheme
           (JList [JDict [("note", JStr "short")];
                   JDict [("htmlUrl", JStr "ftp://sec.example/s1");
                          ("link", JStr "https://sec.example/s1")]])
           "" "https://sec.example/s1").
  vm_compute. reflexivity.
Defined.

Lemma over_items_flat (items : list (string * json)) (txt : string) :
  flat items = true -> over_items items txt = Ok (txt ++ long_text items).
Proof.
  revert txt; induction items as [| [k v] items IH]; intros txt Hf; simpl.
  - now rewrite string_app_nil_r.
  - unfold flat in Hf. simpl in Hf. apply andb_prop in Hf. destruct Hf as [Hv Hf].
    destruct v as [| b | n | s | l | l]; try discriminate; try (now apply IH).
    destruct (40 <? String.length s)%nat.
    + rewrite IH by exact Hf. now rewrite !string_app_assoc.
    + now apply IH.
Qed.

Lemma recursive_search_flat_map (items : list (string * json)) :
  flat items = true ->
  recursive_search (JDict items) = Ok (long_text items, find_url items url_keys).
Proof.
  intros Hf. rewrite recursive_search_dict, over_items_flat by exact Hf. reflexivity.
Qed.

Lemma over_elems_flat_maps (before : list (list (string * json))) (l : list json)
      (txt : string) :
  Forall (fun items => flat items = true /\ find_url items url_keys = None) before ->
  over_elems (map JDict before ++ l) txt
  = over_elems l (txt ++ String.concat "" (map long_text before)).
Proof.
  intros H. revert txt. induction H as [| items before [Hf Hu] _ IH]; intros txt.
  - simpl. now rewrite string_app_nil_r.
  - cbn [map app over_elems]. rewrite recursive_search_flat_map by exact Hf.
    cbn [bind]. rewrite Hu, IH. f_equal.
    rewrite string_app_assoc. f_equal.
    cbn [map]. destruct (map long_text before) as [| t ts] eqn:E.
    + cbn. now rewrite string_app_nil_r.
    + reflexivity.
Qed.

(** X10: over a list of flat maps (maps without a map or a list among
    their values) the traversal collects their long strings in order.  It
    stops at the first map that carries a link: the text is that of the maps
    up to and including this one, the link is its link, and whatever follows
    in the list is neither searched nor able to raise.  Without a link in any
    map the text is that of all of them. *)
Theorem recursive_search_first_link (before : list (list (string * json))) :
  Forall (fun items => flat items = true /\ find_url items url_keys = None) before ->
  recursive_search (JList (map JDict before))
  = Ok (String.concat "" (map long_text before), None)
  /\ forall m rest u,
      flat m = true ->
      find_url m url_keys = Some u ->
      recursive_search (JList (map JDict before ++ JDict m :: rest))
      = Ok (String.concat "" (map long_text before) ++ long_text m, Some u).
Proof.
  intros Hb. rewrite recursive_search_list. split.
  - rewrite <- (app_nil_r (map JDict before)).
    rewrite over_elems_flat_maps by exact Hb. reflexivity.
  - intros m rest u Hm Hu. rewrite recursive_search_list.
    rewrite over_elems_flat_maps by exact Hb.
    cbn [over_elems]. rewrite recursive_search_flat_map by exact Hm.
    cbn [bind]. rewrite Hu, (truthy_url _ _ _ Hu). reflexivity.
Qed.

(** The statement on a list whose second map carries the link and whose
    third element would raise. *)
Lemma recursive_search_first_link_witness :
  recursive_search
    (JList (map JDict [[("note", JStr "short")]]
            ++ JDict [("link", JStr "https://www.sec.gov/filing")]
               :: [JDict [("later", JList [])]]))
  = Ok (String.concat "" (map long_text [[("note", JStr "short")]])
        ++ long_text [("link", JStr "https://www.sec.gov/filing")],
        Some "https://www.sec.gov/filing").
Proof.
  destruct (recursive_search_first_link [[("note", JStr "short")]]) as (_ & H).
  - constructor; [split; reflexivity | constructor].
  - apply H; reflexivity.
Defined.

(** ** Matching *)

Lemma rmatch_rep (r1 : Re.regex) (lo : nat) (hi : option nat) (s : string)
      (g : Re.groups) (k : string -> Re.groups -> option Re.groups) :
  Re.rmatch (Re.Rep r1 lo hi) s g k
  = rep_run r1 k (match hi with Some h => h | None => String.length s end) lo s g.
Proof. reflexivity. Qed.

Lemma rmatch_lit (m s : string) (g : Re.groups)
      (k : string -> Re.groups -> option Re.groups) :
  Re.rmatch (Re.lit m) s g k
  = match strip_prefix_ci m s with
    | Some s' => k s' g
    | None => None
    end.
Proof.
  revert s; induction m as [| c m IH]; intros s; [reflexivity |].
  destruct m as [| c2 m].
  - destruct s as [| c' s]; [reflexivity |]. simpl.
    destruct (Ascii.eqb _ _); reflexivity.
  - change (Re.lit (String c (String c2 m)))
      with (Re.Cat (Re.Lit c) (Re.lit (String c2 m))).
    destruct s as [| c' s]; [reflexivity |].
    change (Re.rmatch (Re.Cat (Re.Lit c) (Re.lit (String c2 m))) (String c' s) g k)
      with (if Ascii.eqb (Text.lower_char c) (Text.lower_char c')
            then Re.rmatch (Re.lit (String c2 m)) s g k else None).
    rewrite IH.
    change (strip_prefix_ci (String c (String c2 m)) (String c' s))
      with (if Ascii.eqb (Text.lower_char c) (Text.lower_char c')
            then strip_prefix_ci (String c2 m) s else None).
    destruct (Ascii.eqb _ _); reflexivity.
Qed.

Lemma strip_prefix_ci_iff (m s s' : string) :
  strip_prefix_ci m s = Some s'
  <-> exists mid, s = mid ++ s' /\ Text.lower mid = Text.lower m.
Proof.
  revert s; induction m as [| c m IH]; intros s; simpl.
  - split.
    + intros [= <-]. now exists "".
    + intros [mid [-> H]]. destruct mid; [reflexivity | discriminate].
  - destruct s as [| c' s].
    + split; [discriminate |].
      intros [mid [H1 H2]]. destruct mid; discriminate.
    + destruct (Ascii.eqb_spec (Text.lower_char c) (Text.lower_char c')) as [E | Hne].
      * rewrite IH. split.
        -- intros [mid [-> H]]. exists (String c' mid). simpl. now rewrite H, E.
        -- intros [mid [H1 H2]]. destruct mid as [| x mid]; [discriminate |].
           simpl in H1, H2. injection H1 as -> ->. injection H2 as _ H2.
           now exists mid.
      * split; [discriminate |].
        intros [mid [H1 H2]]. destruct mid as [| x mid]; [discriminate |].
        simpl in H1, H2. injection H1 as -> ->. injection H2 as H2 _. congruence.
Qed.

(** [re.search] succeeds exactly when the pattern matches at the start of
    some end of the text. *)
Lemma search_iff (r : Re.regex) (s : string) :
  Re.search r s <> None
  <-> exists pre t, s = pre ++ t /\ Re.match_at r t <> None.
Proof.
  induction s as [| c s IH].
  - simpl. split.
    + intros H. exists "", "". split; [reflexivity |].
      destruct (Re.match_at r ""); [discriminate | contradiction].
    + intros [pre [t [E H]]]. destruct pre; [| discriminate].
      simpl in E. subst t. destruct (Re.match_at r ""); [discriminate | contradiction].
  - change (Re.search r (String c s))
      with (match Re.match_at r (String c s) with
            | Some g => Some g
            | None => Re.search r s
            end).
    destruct (Re.match_at r (String c s)) as [g |] eqn:Em.
    + split; [| discriminate]. intros _. exists "", (String c s).
      split; [reflexivity |]. now rewrite Em.
    + rewrite IH. split.
      * intros [pre [t [-> H]]]. now exists (String c pre), t.
      * intros [pre [t [E H]]]. destruct pre as [| x pre].
        -- simpl in E. subst t. now rewrite Em in H.
        -- simpl in E. injection E as _ ->. now exists pre, t.
Qed.

(** The search for a literal pattern decides occurrence up to case. *)
Lemma search_lit_iff (m text : string) :
  is_some (Re.search (Re.lit m) text) = true <-> Text.occurs_ci m text.
Proof.
  assert (Hs : is_some (Re.search (Re.lit m) text) = true
               <-> Re.search (Re.lit m) text <> None).
  { destruct (Re.search (Re.lit m) text); simpl; split; congruence. }
  rewrite Hs, search_iff. unfold Text.occurs_ci. split.
  - intros [pre [t [-> H]]]. unfold Re.match_at in H. rewrite rmatch_lit in H.
    destruct (strip_prefix_ci m t) as [s' |] eqn:E; [| contradiction].
    apply strip_prefix_ci_iff in E. destruct E as [mid [-> Hm]].
    now exists pre, mid, s'.
  - intros [pre [mid [post [-> Hm]]]]. exists pre, (mid ++ post).
    split; [reflexivity |]. unfold Re.match_at. rewrite rmatch_lit.
    assert (E : strip_prefix_ci m (mid ++ post) = Some post)
      by (apply strip_prefix_ci_iff; now exists mid).
    rewrite E. discriminate.
Qed.

(** ** Underwriters *)

Lemma top_underwriters_distinct : NoDup TOP_UNDERWRITERS.
Proof.
  unfold TOP_UNDERWRITERS.
  repeat (constructor; [simpl; intros H; repeat (destruct H as [H | H]; [discriminate H |]);
                        exact H |]).
  constructor.
Qed.

Lemma dedup_from_distinct (seen l : list string) :
  NoDup (dedup_from seen l) /\ forall x, In x (dedup_from seen l) -> ~ In x seen.
Proof.
  revert seen; induction l as [| a l IH]; intros seen; simpl.
  - split; [constructor | contradiction].
  - destruct (in_dec string_dec a seen) as [Ha | Ha]; [apply IH |].
    destruct (IH (a :: seen)) as [Hnd Hin]. split.
    + constructor; [| exact Hnd]. intros H. apply (Hin a H). now left.
    + intros x [<- | Hx]; [exact Ha |].
      intros Hs. apply (Hin x Hx). now right.
Qed.

Lemma firstn_distinct {A : Type} (n : nat) (l : list A) : NoDup l -> NoDup (firstn n l).
Proof.
  intros H. rewrite <- (firstn_skipn n l) in H. now apply NoDup_app_remove_r in H.
Qed.

(** X11: the underwriters read off a text are, whenever a roster name
    occurs in it up to case, exactly the roster names that occur, in roster
    order; in every case they are pairwise different and at most eleven, and
    at most six when no roster name occurs. *)
Theorem underwriters_of_roster (combined_text : string) :
  (forall found,
      selects (fun m => Text.occurs_ci m combined_text) TOP_UNDERWRITERS found ->
      (found <> [] -> underwriters_of combined_text = found)
      /\ (found = [] -> (List.length (underwriters_of combined_text) <= 6)%nat))
  /\ NoDup (underwriters_of combined_text)
  /\ (List.length (underwriters_of combined_text) <= 11)%nat.
Proof.
  set (detected :=
         filter (fun m => is_some (Re.search (Re.lit m) combined_text)) TOP_UNDERWRITERS).
  assert (Hu : underwriters_of combined_text
               = match detected with
                 | _ :: _ => detected
                 | [] =>
                     match findall uw_re combined_text with
                     | _ :: _ => firstn 6 (dedup_from [] (findall uw_re combined_text))
                     | [] => []
                     end
                 end) by reflexivity.
  assert (H6 : (List.length
                  match findall uw_re combined_text with
                  | _ :: _ => firstn 6 (dedup_from [] (findall uw_re combined_text))
                  | [] => []
                  end <= 6)%nat).
  { destruct (findall uw_re combined_text); [simpl; lia |]. apply firstn_le_length. }
  split; [| split].
  - intros found Hsel.
    apply (selects_is_filter _ (fun m => is_some (Re.search (Re.lit m) combined_text)))
      in Hsel; [| intros m; apply search_lit_iff].
    fold detected in Hsel. subst found. rewrite Hu. split.
    + destruct detected; [contradiction | reflexivity].
    + intros ->. exact H6.
  - rewrite Hu. destruct detected eqn:Ed.
    + destruct (findall uw_re combined_text); [constructor |].
      apply firstn_distinct, dedup_from_distinct.
    + rewrite <- Ed. apply NoDup_filter, top_underwriters_distinct.
  - rewrite Hu. destruct detected eqn:Ed; [lia |].
    rewrite <- Ed. subst detected.
    change 11%nat with (List.length TOP_UNDERWRITERS). apply filter_length_le.
Qed.

Lemma roster_names_name_themselves :
  forallb names_top_underwriter TOP_UNDERWRITERS = true.
Proof. vm_compute. reflexivity. Qed.

Lemma filter_all {A : Type} (f : A -> bool) (l : list A) :
  forallb f l = true -> filter f l = l.
Proof.
  induction l as [| a l IH]; simpl; [reflexivity |].
  intros H. apply andb_prop in H. destruct H as [Ha Hl]. now rewrite Ha, IH.
Qed.

Lemma selects_incl {A : Type} (P : A -> Prop) (l l' : list A) :
  selects P l l' -> forall x, In x l' <-> In x l /\ P x.
Proof.
  induction 1 as [| a l l' Ha _ IH | a l l' Ha _ IH]; intros x; simpl.
  - tauto.
  - rewrite IH. split.
    + intros [<- | [H1 H2]]; tauto.
    + intros [[<- | H1] H2]; tauto.
  - rewrite IH. split; [tauto |].
    intros [[<- | H1] H2]; [contradiction | tauto].
Qed.

Lemma occurs_ci_inside (a b text : string) :
  Text.occurs_ci a b -> Text.occurs_ci b text -> Text.occurs_ci a text.
Proof.
  intros Hab [pre [mid [post [-> Hmid]]]].
  apply str_in_lower_iff in Hab. rewrite <- Hmid in Hab.
  apply str_in_lower_iff in Hab. destruct Hab as [p [m [q [-> Hm]]]].
  exists (pre ++ p), m, (q ++ post). split; [| exact Hm].
  now rewrite !string_app_assoc.
Qed.

(** The roster names found are the underwriters, and each names a roster
    bank. *)
Lemma underwriters_of_roster_aux (combined_text : string) (found : list string) :
  selects (fun m => Text.occurs_ci m combined_text) TOP_UNDERWRITERS found ->
  found <> [] ->
  underwriters_of combined_text = found
  /\ forallb names_top_underwriter found = true.
Proof.
  intros Hsel Hne.
  pose proof (selects_incl _ _ _ Hsel) as Hin.
  apply (selects_is_filter _ (fun m => is_some (Re.search (Re.lit m) combined_text)))
    in Hsel; [| intros m; apply search_lit_iff].
  split.
  - unfold underwriters_of. rewrite <- Hsel.
    destruct found; [contradiction | reflexivity].
  - apply forallb_forall. intros x Hx. apply Hin in Hx. destruct Hx as [Hx _].
    pose proof roster_names_name_themselves as Hall.
    rewrite forallb_forall in Hall. now apply Hall.
Qed.

(** X12: when a roster name occurs in the text, the credibility of the
    underwriters read off the text is "High" for two or more names found and
    "Medium" for one, with these names as the matches; it is never "Low" or
    "Unknown".  A text that names Citigroup is always scored "High": the
    roster also holds Citi, which occurs in Citigroup. *)
Theorem underwriters_credibility (combined_text : string) :
  (forall found,
      selects (fun m => Text.occurs_ci m combined_text) TOP_UNDERWRITERS found ->
      found <> [] ->
      underwriter_credibility_score (Some (underwriters_of combined_text))
      = {| score := if (2 <=? List.length found)%nat then "High" else "Medium";
           matches := found |})
  /\ (Text.occurs_ci "Citigroup" combined_text ->
      score (underwriter_credibility_score (Some (underwriters_of combined_text)))
      = "High").
Proof.
  assert (Hgen : forall found,
             selects (fun m => Text.occurs_ci m combined_text) TOP_UNDERWRITERS found ->
             found <> [] ->
             underwriter_credibility_score (Some (underwriters_of combined_text))
             = {| score := if (2 <=? List.length found)%nat then "High" else "Medium";
                  matches := found |}).
  { intros found Hsel Hne.
    destruct (underwriters_of_roster_aux combined_text found Hsel Hne) as [-> Hall].
    unfold underwriter_credibility_score.
    destruct found as [| a found]; [contradiction |].
    rewrite (filter_all _ _ Hall).
    destruct (2 <=? List.length (a :: found))%nat eqn:E2; [reflexivity |].
    destruct found; [reflexivity | discriminate]. }
  split; [exact Hgen |].
  intros Hciti.
  set (found := filter (fun m => is_some (Re.search (Re.lit m) combined_text))
                  TOP_UNDERWRITERS).
  assert (Hsel : selects (fun m => Text.occurs_ci m combined_text) TOP_UNDERWRITERS found).
  { apply selects_filter. intros m _. apply search_lit_iff. }
  assert (H1 : In "Citigroup" found).
  { apply (selects_incl _ _ _ Hsel). split; [| exact Hciti].
    unfold TOP_UNDERWRITERS. simpl. tauto. }
  assert (H2 : In "Citi" found).
  { apply (selects_incl _ _ _ Hsel). split; [unfold TOP_UNDERWRITERS; simpl; tauto |].
    apply (occurs_ci_inside _ "Citigroup"); [| exact Hciti].
    exists "", "Citi", "group". split; reflexivity. }
  rewrite (Hgen found Hsel) by (intros E; rewrite E in H1; contradiction).
  cbn [score].
  destruct found as [| a [| b found']]; [contradiction | | reflexivity].
  exfalso. destruct H1 as [-> | []]. destruct H2 as [H2 | []]. discriminate H2.
Qed.

(** ** Backers *)

Lemma is_word_lower (c : ascii) : is_word (Text.lower_char c) = is_word c.
Proof. destruct c as [[] [] [] [] [] [] [] []]; reflexivity. Qed.

Lemma opt_word_first_lower (s : string) :
  opt_word (first_char (Text.lower s)) = opt_word (first_char s).
Proof. destruct s; [reflexivity | apply is_word_lower]. Qed.

Lemma opt_word_last_lower (s : string) :
  opt_word (last_char (Text.lower s)) = opt_word (last_char s).
Proof.
  assert (H : last_char (Text.lower s) = option_map Text.lower_char (last_char s)).
  { induction s as [| c s IH]; [reflexivity |]. simpl. rewrite IH.
    now destruct (last_char s). }
  rewrite H. destruct (last_char s); [apply is_word_lower | reflexivity].
Qed.

Lemma split_prefix_ci_iff (w s m rest : string) :
  split_prefix_ci w s = Some (m, rest)
  <-> s = m ++ rest /\ Text.lower m = Text.lower w.
Proof.
  revert s m rest; induction w as [| c w IH]; intros s m rest; simpl.
  - split.
    + intros [= <- <-]. now split.
    + intros [-> H]. destruct m; [reflexivity | discriminate].
  - destruct s as [| c' s].
    + split; [discriminate |]. intros [H1 H2]. destruct m; discriminate.
    + destruct (Ascii.eqb_spec (Text.lower_char c) (Text.lower_char c')) as [E | Hne].
      * destruct (split_prefix_ci w s) as [[m' r'] |] eqn:Es.
        -- apply IH in Es. destruct Es as [-> Hm]. split.
           ++ intros [= <- <-]. simpl. now rewrite Hm, E.
           ++ intros [H1 H2]. destruct m as [| x m]; [discriminate |].
              simpl in H1, H2. injection H1 as <- H1. injection H2 as _ H2.
              assert (Hs : split_prefix_ci w (m' ++ r') = Some (m, rest))
                by (apply IH; now split).
              assert (Hs' : split_prefix_ci w (m' ++ r') = Some (m', r'))
                by (apply IH; now split).
              congruence.
        -- split; [discriminate |].
           intros [H1 H2]. destruct m as [| x m]; [discriminate |].
           simpl in H1, H2. injection H1 as <- H1. injection H2 as _ H2.
           assert (Hs : split_prefix_ci w s = Some (m, rest)) by (apply IH; now split).
           congruence.
      * split; [discriminate |].
        intros [H1 H2]. destruct m as [| x m]; [discriminate |].
        simpl in H1, H2. injection H1 as <- _. injection H2 as H2 _. congruence.
Qed.

Lemma first_char_app (a b : string) :
  a <> "" -> first_char (a ++ b) = first_char a.
Proof. destruct a; [contradiction | reflexivity]. Qed.

Lemma last_or_cons (prev : option ascii) (c : ascii) (pre : string) :
  last_or prev (String c pre) = last_or (Some c) pre.
Proof. unfold last_or. simpl. now destruct (last_char pre). Qed.

(** At a place of the text, the pattern matches exactly when the text goes
    on with the word and no word character stands on either side. *)
Lemma word_match_here_iff (prev : option ascii) (w text : string) :
  word_ended w = true ->
  (word_match_here prev w text = true
   <-> exists mid post,
         text = mid ++ post /\ Text.lower mid = Text.lower w
         /\ opt_word prev = false /\ opt_word (first_char post) = false).
Proof.
  intros Hw. unfold word_ended in Hw. apply andb_prop in Hw. destruct Hw as [Hf Hl].
  assert (Hmid : forall mid, Text.lower mid = Text.lower w ->
                             mid <> "" /\ opt_word (first_char mid) = true
                             /\ opt_word (last_char mid) = true
                             /\ exists c, last_char mid = Some c).
  { intros mid Hm.
    assert (H1 : opt_word (first_char mid) = true)
      by (rewrite <- opt_word_first_lower, Hm, opt_word_first_lower; exact Hf).
    assert (H2 : opt_word (last_char mid) = true)
      by (rewrite <- opt_word_last_lower, Hm, opt_word_last_lower; exact Hl).
    split; [intros ->; discriminate |]. split; [exact H1 |]. split; [exact H2 |].
    destruct (last_char mid) as [c |]; [now exists c | discriminate]. }
  unfold word_match_here. split.
  - destruct (split_prefix_ci w text) as [[m rest] |] eqn:Es; [| discriminate].
    apply split_prefix_ci_iff in Es. destruct Es as [-> Hm].
    destruct (Hmid m Hm) as [Hne [H1 [H2 [c Hc]]]].
    rewrite first_char_app by exact Hne. rewrite Hc.
    unfold word_boundary. fold (opt_word prev). fold (opt_word (first_char m)).
    fold (opt_word (first_char rest)). rewrite H1.
    rewrite Hc in H2. simpl in H2. rewrite H2.
    intros H. apply andb_prop in H. destruct H as [Ha Hb].
    exists m, rest. split; [reflexivity |]. split; [exact Hm |].
    split; [destruct (opt_word prev); [discriminate | reflexivity] |].
    destruct (opt_word (first_char rest)); [discriminate | reflexivity].
  - intros [mid [post [-> [Hm [Hp Hq]]]]].
    assert (Es : split_prefix_ci w (mid ++ post) = Some (mid, post))
      by (apply split_prefix_ci_iff; now split).
    rewrite Es.
    destruct (Hmid mid Hm) as [Hne [H1 [H2 [c Hc]]]].
    rewrite first_char_app by exact Hne. rewrite Hc.
    unfold word_boundary. fold (opt_word prev). fold (opt_word (first_char mid)).
    fold (opt_word (first_char post)).
    rewrite Hc in H2. simpl in H2. now rewrite H1, H2, Hp, Hq.
Qed.

Lemma word_search_from_iff (w text : string) :
  word_ended w = true ->
  forall prev,
    word_search_from prev w text = true
    <-> exists pre mid post,
          text = pre ++ mid ++ post /\ Text.lower mid = Text.lower w
          /\ opt_word (last_or prev pre) = false /\ opt_word (first_char post) = false.
Proof.
  intros Hw. induction text as [| c text IH]; intros prev.
  - change (word_search_from prev w "") with (word_match_here prev w "" || false).
    rewrite orb_false_r, (word_match_here_iff prev w "" Hw). split.
    + intros [mid [post H]]. now exists "", mid, post.
    + intros [pre [mid [post [E H]]]]. destruct pre; [| discriminate].
      now exists mid, post.
  - change (word_search_from prev w (String c text))
      with (word_match_here prev w (String c text) || word_search_from (Some c) w text).
    rewrite orb_true_iff, (word_match_here_iff prev w _ Hw), IH. split.
    + intros [[mid [post H]] | [pre [mid [post [-> [Hm [Hp Hq]]]]]]].
      * now exists "", mid, post.
      * exists (String c pre), mid, post. split; [reflexivity |].
        split; [exact Hm |]. split; [now rewrite last_or_cons | exact Hq].
    + intros [pre [mid [post [E [Hm [Hp Hq]]]]]]. destruct pre as [| x pre].
      * left. now exists mid, post.
      * right. rewrite last_or_cons in Hp. simpl in E.
        assert (Ec : c = x) by congruence. assert (Et : text = pre ++ mid ++ post) by congruence.
        subst x. exists pre, mid, post. split; [exact Et |].
        split; [exact Hm |]. split; [exact Hp | exact Hq].
Qed.

Lemma word_search_iff (w text : string) :
  word_ended w = true -> (word_search w text = true <-> whole_word w text).
Proof.
  intros Hw. unfold word_search, whole_word.
  rewrite (word_search_from_iff w text Hw None).
  assert (Hl : forall pre, last_or None pre = last_char pre)
    by (intros pre; unfold last_or; now destruct (last_char pre)).
  split; intros [pre [mid [post [E [Hm [Hp Hq]]]]]]; exists pre, mid, post;
    (split; [exact E |]; split; [exact Hm |]; split; [| exact Hq]).
  - now rewrite <- Hl.
  - now rewrite Hl.
Qed.

Lemma insert_string_in (x y : string) (l : list string) :
  In y (insert_string x l) <-> y = x \/ In y l.
Proof.
  induction l as [| a l IH]; simpl; [intuition congruence |].
  destruct (String.leb x a); simpl; [intuition congruence |].
  rewrite IH. intuition congruence.
Qed.

Lemma sorted_strings_in (y : string) (l : list string) :
  In y (sorted_strings l) <-> In y l.
Proof.
  induction l as [| a l IH]; simpl; [tauto |].
  rewrite insert_string_in, IH. intuition congruence.
Qed.

Lemma insert_string_ordered (x : string) (l : list string) :
  Sorted (fun a b => String.leb a b = true) l ->
  Sorted (fun a b => String.leb a b = true) (insert_string x l).
Proof.
  induction l as [| y l IH]; intros Hs; simpl.
  - repeat constructor.
  - destruct (String.leb x y) eqn:Hxy.
    + constructor; [exact Hs |]. now constructor.
    + assert (Hyx : String.leb y x = true)
        by (destruct (String.leb_total x y); congruence).
      inversion Hs as [| ? ? Hl Hhd]; subst.
      constructor; [now apply IH |].
      destruct l as [| z l]; simpl.
      * now constructor.
      * destruct (String.leb x z); constructor; [exact Hyx | now inversion Hhd].
Qed.

Lemma insert_string_distinct (x : string) (l : list string) :
  ~ In x l -> NoDup l -> NoDup (insert_string x l).
Proof.
  induction l as [| y l IH]; intros Hx Hl; simpl.
  - constructor; [exact Hx | constructor].
  - destruct (String.leb x y); [now constructor |].
    inversion Hl; subst. constructor.
    + rewrite insert_string_in. intros [-> | H]; [apply Hx; now left | contradiction].
    + apply IH; [intros H; apply Hx; now right | assumption].
Qed.

Lemma sorted_strings_distinct (l : list string) : NoDup l -> NoDup (sorted_strings l).
Proof.
  induction l as [| a l IH]; intros H; simpl; [constructor |].
  inversion H; subst.
  apply insert_string_distinct; [now rewrite sorted_strings_in | now apply IH].
Qed.

Lemma sorted_strings_ordered (l : list string) :
  Sorted (fun a b => String.leb a b = true) (sorted_strings l).
Proof.
  induction l as [| a l IH]; simpl; [constructor | now apply insert_string_ordered].
Qed.

Lemma dedup_from_in (seen l : list string) (x : string) :
  In x (dedup_from seen l) <-> In x l /\ ~ In x seen.
Proof.
  revert seen; induction l as [| a l IH]; intros seen; simpl; [tauto |].
  destruct (in_dec string_dec a seen) as [Ha | Ha].
  - rewrite IH. split; [tauto |]. intros [[<- | H] Hs]; tauto.
  - simpl. rewrite IH. simpl. split.
    + intros [<- | [H1 H2]]; tauto.
    + intros [[<- | H] Hs]; [tauto |].
      destruct (string_dec a x) as [-> | Hne]; [tauto |]. right. tauto.
Qed.

Lemma top_vcs_word_ended : forallb word_ended TOP_VCS = true.
Proof. vm_compute. reflexivity. Qed.

(** X13: the backers detected are the roster names that occur in the text
    as whole words up to case (no letter, digit or underscore right before
    or right behind), each once, in ascending order of their characters, so
    capitals first; an empty text has none. *)
Theorem detect_vc_backers_spec (text : string) :
  (forall vc, In vc (detect_vc_backers text) <-> In vc TOP_VCS /\ whole_word vc text)
  /\ NoDup (detect_vc_backers text)
  /\ Sorted (fun a b => String.leb a b = true) (detect_vc_backers text)
  /\ detect_vc_backers "" = [].
Proof.
  split; [| split; [| split]]; try reflexivity.
  - intros vc. unfold detect_vc_backers.
    destruct text as [| c text].
    + simpl. split; [contradiction |].
      intros [H [pre [mid [post [E [Hm _]]]]]].
      destruct pre; [| discriminate]. destruct mid; [| discriminate].
      assert (Hv : Text.lower vc = "") by (symmetry; exact Hm).
      destruct vc; [| discriminate].
      revert H. unfold TOP_VCS. simpl.
      intros H. repeat (destruct H as [H | H]; [discriminate H |]). exact H.
    + cbn [Text.truthy_str negb].
      rewrite sorted_strings_in, dedup_from_in.
      rewrite (fold_left_append_filter
                 (fun vc => word_search vc (String c text)) (fun vc => vc) TOP_VCS []).
      cbn [app]. rewrite map_id, filter_In.
      pose proof top_vcs_word_ended as Hall. rewrite forallb_forall in Hall.
      split.
      * intros [[Hin Hs] _]. split; [exact Hin |].
        now apply word_search_iff; [apply Hall |].
      * intros [Hin Hw]. split; [| intros []]. split; [exact Hin |].
        now apply word_search_iff; [apply Hall |].
  - unfold detect_vc_backers. destruct (negb (Text.truthy_str text)); [constructor |].
    apply sorted_strings_distinct. apply (proj1 (dedup_from_distinct [] _)).
  - unfold detect_vc_backers. destruct (negb (Text.truthy_str text)); [constructor |].
    apply sorted_strings_ordered.
Qed.

(** ** The lockup string *)

Lemma rmatch_cat (a b : Re.regex) (s : string) (g : Re.groups)
      (k : string -> Re.groups -> option Re.groups) :
  Re.rmatch (Re.Cat a b) s g k = Re.rmatch a s g (fun s' g' => Re.rmatch b s' g' k).
Proof. reflexivity. Qed.

Lemma rmatch_group (i : nat) (r : Re.regex) (s : string) (g : Re.groups)
      (k : string -> Re.groups -> option Re.groups) :
  Re.rmatch (Re.Group i r) s g k
  = Re.rmatch r s g (fun s' g' => k s' ((i, Re.consumed s s') :: g')).
Proof. reflexivity. Qed.

Lemma string_length_app (a b : string) :
  String.length (a ++ b) = (String.length a + String.length b)%nat.
Proof. induction a as [| c a IH]; simpl; [reflexivity | now rewrite IH]. Qed.

Lemma consumed_app (u s' : string) : Re.consumed (u ++ s') s' = u.
Proof.
  unfold Re.consumed. rewrite string_length_app.
  replace (String.length u + String.length s' - String.length s')%nat
    with (String.length u) by lia.
  induction u as [| c u IH]; simpl.
  - now destruct s'.
  - now rewrite IH.
Qed.

(** A repetition of a character class takes a run of characters of the
    class, as many as its bounds allow, and goes on behind it. *)
Lemma rep_run_class (p : ascii -> bool) (k : string -> Re.groups -> option Re.groups)
      (m : Re.groups) (budget : nat) :
  forall lo s g,
    rep_run (Re.Class p) k budget lo s g = Some m ->
    exists u s',
      s = u ++ s' /\ all_chars p u = true
      /\ (lo <= String.length u <= budget)%nat /\ k s' g = Some m.
Proof.
  assert (Hstop : forall lo s g,
             (if Nat.eqb lo 0 then k s g else None) = Some m ->
             exists u s',
               s = u ++ s' /\ all_chars p u = true
               /\ (lo <= String.length u <= budget)%nat /\ k s' g = Some m).
  { intros lo s g H. destruct (Nat.eqb_spec lo 0) as [-> | _]; [| discriminate].
    exists "", s. repeat split; simpl; try lia. exact H. }
  induction budget as [| b IH]; intros lo s g H.
  - apply Hstop. exact H.
  - change (rep_run (Re.Class p) k (S b) lo s g)
      with (match Re.rmatch (Re.Class p) s g
                    (fun s' g' => rep_run (Re.Class p) k b (pred lo) s' g') with
            | Some m => Some m
            | None => if Nat.eqb lo 0 then k s g else None
            end) in H.
    destruct s as [| c s].
    + simpl in H. destruct (Hstop lo "" g H) as [u [s' [E [Hu [Hl Hk]]]]].
      exists u, s'. repeat split; try assumption; lia.
    + simpl in H. destruct (p c) eqn:Hp.
      * destruct (rep_run (Re.Class p) k b (pred lo) s g) as [m0 |] eqn:Er.
        -- assert (Hm : m0 = m) by congruence. subst m0.
           assert (IH' : forall lo s g,
                      rep_run (Re.Class p) k b lo s g = Some m ->
                      exists u s',
                        s = u ++ s' /\ all_chars p u = true
                        /\ (lo <= String.length u <= b)%nat /\ k s' g = Some m).
           { intros lo0 s0 g0 H0. apply IH; [| exact H0].
             intros lo1 s1 g1 H1. destruct (Nat.eqb_spec lo1 0) as [-> | _]; [| discriminate].
             exists "", s1. repeat split; simpl; try lia. exact H1. }
           destruct (IH' _ _ _ Er) as [u [s' [E [Hu [Hl Hk]]]]].
           exists (String c u), s'. simpl. rewrite Hp, Hu, E.
           repeat split; try lia. exact Hk.
        -- destruct (Hstop lo (String c s) g H) as [u [s' [E [Hu [Hl Hk]]]]].
           exists u, s'. repeat split; try assumption; lia.
      * destruct (Hstop lo (String c s) g H) as [u [s' [E [Hu [Hl Hk]]]]].
        exists u, s'. repeat split; try assumption; lia.
Qed.

Lemma rmatch_rep_class (p : ascii -> bool) (lo : nat) (hi : option nat) (s : string)
      (g m : Re.groups) (k : string -> Re.groups -> option Re.groups) :
  Re.rmatch (Re.Rep (Re.Class p) lo hi) s g k = Some m ->
  exists u s',
    s = u ++ s' /\ all_chars p u = true
    /\ (lo <= String.length u)%nat
    /\ (forall h, hi = Some h -> (String.length u <= h)%nat)
    /\ k s' g = Some m.
Proof.
  rewrite rmatch_rep. intros H. apply rep_run_class in H.
  destruct H as [u [s' [E [Hu [Hl Hk]]]]]. exists u, s'.
  repeat split; try assumption; try lia.
  intros h ->. lia.
Qed.

Lemma rmatch_lit_some (w s : string) (g m : Re.groups)
      (k : string -> Re.groups -> option Re.groups) :
  Re.rmatch (Re.lit w) s g k = Some m ->
  exists u s', s = u ++ s' /\ Text.lower u = Text.lower w /\ k s' g = Some m.
Proof.
  rewrite rmatch_lit. destruct (strip_prefix_ci w s) as [s' |] eqn:E; [| discriminate].
  intros H. apply strip_prefix_ci_iff in E. destruct E as [u [-> Hu]]. now exists u, s'.
Qed.

Lemma rmatch_alt_lit (w : string) (r : Re.regex) (s : string) (g m : Re.groups)
      (k : string -> Re.groups -> option Re.groups) :
  Re.rmatch (Re.Alt (Re.lit w) r) s g k = Some m ->
  (exists u s', s = u ++ s' /\ Text.lower u = Text.lower w /\ k s' g = Some m)
  \/ Re.rmatch r s g k = Some m.
Proof.
  change (Re.rmatch (Re.Alt (Re.lit w) r) s g k)
    with (match Re.rmatch (Re.lit w) s g k with
          | Some m => Some m
          | None => Re.rmatch r s g k
          end).
  destruct (Re.rmatch (Re.lit w) s g k) as [m0 |] eqn:E.
  - intros H. left. apply rmatch_lit_some. congruence.
  - intros H. now right.
Qed.

Lemma search_some (r : Re.regex) (s : string) (g : Re.groups) :
  Re.search r s = Some g -> exists pre t, s = pre ++ t /\ Re.match_at r t = Some g.
Proof.
  induction s as [| c s IH]; simpl.
  - destruct (Re.match_at r "") eqn:E; [| discriminate].
    intros H. exists "", "". split; [reflexivity | congruence].
  - destruct (Re.match_at r (String c s)) eqn:E.
    + intros H. exists "", (String c s). split; [reflexivity | congruence].
    + intros H. destruct (IH H) as [pre [t [-> Ht]]].
      now exists (String c pre), t.
Qed.

(** What a match of the lockup pattern at the start of a text holds. *)
Lemma lockup_re_match (t : string) (m : Re.groups) :
  Re.match_at lockup_re t = Some m ->
  exists lock sep up gap digits spaces unit after,
    t = lock ++ sep ++ up ++ gap ++ digits ++ spaces ++ unit ++ after
    /\ Text.lower lock = "lock"
    /\ all_chars (fun c => Ascii.eqb c "-" || Text.is_space c) sep = true
    /\ (String.length sep <= 1)%nat
    /\ Text.lower up = "up"
    /\ all_chars (fun c => negb (Text.is_digit c)) gap = true
    /\ (String.length gap <= 30)%nat
    /\ all_chars Text.is_digit digits = true
    /\ (1 <= String.length digits <= 4)%nat
    /\ all_chars Text.is_space spaces = true
    /\ In (Text.lower unit) lockup_units
    /\ m = [(2, unit); (1, digits)]%nat.
Proof.
  unfold Re.match_at, lockup_re, Re.seq. cbn [fold_left]. intros H.
  rewrite !rmatch_cat in H.
  apply rmatch_lit_some in H. destruct H as [lock [s1 [-> [Hlock H]]]].
  apply rmatch_rep_class in H. destruct H as [sep [s2 [-> [Hsep [_ [Hsepl H]]]]]].
  apply rmatch_lit_some in H. destruct H as [up [s3 [-> [Hup H]]]].
  apply rmatch_rep_class in H. destruct H as [gap [s4 [-> [Hgap [_ [Hgapl H]]]]]].
  rewrite rmatch_group in H.
  apply rmatch_rep_class in H. destruct H as [digits [s5 [-> [Hd [Hd1 [Hd4 H]]]]]].
  rewrite consumed_app in H.
  apply rmatch_rep_class in H. destruct H as [spaces [s6 [-> [Hsp [_ [_ H]]]]]].
  rewrite rmatch_group in H.
  assert (Hunit : exists unit after,
             s6 = unit ++ after /\ In (Text.lower unit) lockup_units
             /\ m = [(2, unit); (1, digits)]%nat).
  { assert (Hend : forall w u s',
               In w lockup_units -> s6 = u ++ s' -> Text.lower u = Text.lower w ->
               Some ((2%nat, Re.consumed s6 s') :: [(1%nat, digits)]) = Some m ->
               exists unit after,
                 s6 = unit ++ after /\ In (Text.lower unit) lockup_units
                 /\ m = [(2, unit); (1, digits)]%nat).
    { intros w u s' Hw -> Hu Hm. rewrite consumed_app in Hm.
      exists u, s'. split; [reflexivity |]. split; [| congruence].
      rewrite Hu. unfold lockup_units in *. simpl in Hw.
      repeat (destruct Hw as [<- | Hw]; [vm_compute; tauto |]). contradiction. }
    apply rmatch_alt_lit in H.
    destruct H as [[u [s' [E [Hu Hm]]]] | H];
      [apply (Hend "days" u s'); [vm_compute; tauto | assumption ..] |].
    apply rmatch_alt_lit in H.
    destruct H as [[u [s' [E [Hu Hm]]]] | H];
      [apply (Hend "day" u s'); [vm_compute; tauto | assumption ..] |].
    apply rmatch_alt_lit in H.
    destruct H as [[u [s' [E [Hu Hm]]]] | H];
      [apply (Hend "months" u s'); [vm_compute; tauto | assumption ..] |].
    apply rmatch_alt_lit in H.
    destruct H as [[u [s' [E [Hu Hm]]]] | H];
      [apply (Hend "month" u s'); [vm_compute; tauto | assumption ..] |].
    apply rmatch_lit_some in H. destruct H as [u [s' [E [Hu Hm]]]].
    apply (Hend "m" u s'); [vm_compute; tauto | assumption ..]. }
  destruct Hunit as [unit [after [-> [Hunit Hm]]]].
  exists lock, sep, up, gap, digits, spaces, unit, after.
  split; [reflexivity |].
  split; [exact Hlock |]. split; [exact Hsep |].
  split; [now apply Hsepl |]. split; [exact Hup |]. split; [exact Hgap |].
  split; [now apply Hgapl |]. split; [exact Hd |].
  split; [split; [exact Hd1 | now apply Hd4] |].
  split; [exact Hsp |]. split; [exact Hunit | exact Hm].
Qed.

(** What a match of the days pattern at the start of a text holds. *)
Lemma days_re_match (t : string) (m : Re.groups) :
  Re.match_at days_re t = Some m ->
  exists digits spaces unit after,
    t = digits ++ spaces ++ unit ++ after
    /\ all_chars Text.is_digit digits = true
    /\ (2 <= String.length digits <= 4)%nat
    /\ all_chars Text.is_space spaces = true
    /\ Text.lower unit = "days"
    /\ m = [(1, digits)]%nat.
Proof.
  unfold Re.match_at, days_re, Re.seq. cbn [fold_left]. intros H.
  rewrite !rmatch_cat in H. rewrite rmatch_group in H.
  apply rmatch_rep_class in H. destruct H as [digits [s5 [-> [Hd [Hd1 [Hd4 H]]]]]].
  rewrite consumed_app in H.
  apply rmatch_rep_class in H. destruct H as [spaces [s6 [-> [Hsp [_ [_ H]]]]]].
  apply rmatch_lit_some in H. destruct H as [unit [after [-> [Hu Hm]]]].
  exists digits, spaces, unit, after.
  split; [reflexivity |]. split; [exact Hd |].
  split; [split; [exact Hd1 | now apply Hd4] |].
  split; [exact Hsp |]. split; [exact Hu | congruence].
Qed.

(** X14: a lockup string is always read off the text: one to four digits
    of the text, a space and the unit that follows them in the text (after
    optional white space) when a lockup marker stands before the digits,
    and otherwise two to four digits of the text that "days" follows, with
    the unit written "days". *)
Theorem parse_lockup_format (text out : string) :
  parse_lockup text = Some out ->
  exists before digits spaces unit after,
    text = before ++ digits ++ spaces ++ unit ++ after
    /\ all_chars Text.is_digit digits = true
    /\ (1 <= String.length digits <= 4)%nat
    /\ all_chars Text.is_space spaces = true
    /\ In (Text.lower unit) lockup_units
    /\ ((lockup_marker before /\ out = digits ++ " " ++ unit)
        \/ (Text.lower unit = "days" /\ (2 <= String.length digits)%nat
            /\ out = digits ++ " days")).
Proof.
  unfold parse_lockup. destruct (negb (Text.truthy_str text)); [discriminate |].
  destruct (Re.search lockup_re text) as [m |] eqn:E1.
  - intros H. apply search_some in E1. destruct E1 as [pre [t [-> Hm]]].
    apply lockup_re_match in Hm.
    destruct Hm as (lock & sep & up & gap & digits & spaces & unit & after
                    & -> & Hlock & Hsep & Hsepl & Hup & Hgap & Hgapl
                    & Hd & Hdl & Hsp & Hunit & ->).
    exists (pre ++ lock ++ sep ++ up ++ gap), digits, spaces, unit, after.
    split; [now rewrite !string_app_assoc |].
    split; [exact Hd |]. split; [exact Hdl |]. split; [exact Hsp |].
    split; [exact Hunit |]. left. split.
    + exists pre, lock, sep, up, gap. repeat split; assumption.
    + assert (He : Some (digits ++ " " ++ unit) = Some out) by exact H. congruence.
  - destruct (Re.search days_re text) as [m2 |] eqn:E2; [| discriminate].
    intros H. apply search_some in E2. destruct E2 as [pre [t [-> Hm]]].
    apply days_re_match in Hm.
    destruct Hm as (digits & spaces & unit & after & -> & Hd & Hdl & Hsp & Hunit & ->).
    exists pre, digits, spaces, unit, after.
    split; [reflexivity |]. split; [exact Hd |]. split; [lia |]. split; [exact Hsp |].
    split; [rewrite Hunit; vm_compute; tauto |]. right.
    split; [exact Hunit |]. split; [lia |].
    assert (He : Some (digits ++ " days") = Some out) by exact H. congruence.
Qed.

Lemma parse_lockup_format_witness :
  parse_lockup "Lock-up period of 180 days applies" = Some "180 days"
  /\ exists before digits spaces unit after,
       "Lock-up period of 180 days applies"
       = before ++ digits ++ spaces ++ unit ++ after
       /\ all_chars Text.is_digit digits = true
       /\ (1 <= String.length digits <= 4)%nat
       /\ all_chars Text.is_space spaces = true
       /\ In (Text.lower unit) lockup_units
       /\ ((lockup_marker before /\ "180 days" = digits ++ " " ++ unit)
           \/ (Text.lower unit = "days" /\ (2 <= String.length digits)%nat
               /\ "180 days" = digits ++ " days")).
Proof.
  split; [vm_compute; reflexivity |].
  apply (parse_lockup_format "Lock-up period of 180 days applies" "180 days").
  vm_compute. reflexivity.
Defined.

(** ** The median and the order of the values *)

Lemma canon_eq (x y : num) : (py_float x == py_float y)%Q <-> canon x = canon y.
Proof.
  unfold canon. split.
  - apply Qred_complete.
  - intros H. rewrite <- (Qred_correct (py_float x)), <- (Qred_correct (py_float y)).
    now rewrite H.
Qed.

Lemma non_null_perm (vals vals' : list (option num)) :
  Permutation vals vals' -> Permutation (non_null vals) (non_null vals').
Proof.
  induction 1 as [| x l l' _ IH | x y l | l l' l'' _ IH1 _ IH2]; simpl.
  - constructor.
  - destruct x; [now constructor | exact IH].
  - destruct x, y; try apply Permutation_refl. apply perm_swap.
  - now apply perm_trans with (non_null l').
Qed.

Lemma canon_ordered (s : list num) :
  StronglySorted num_le s -> StronglySorted Qle (map canon s).
Proof.
  induction 1 as [| a l Hs IH Ha]; simpl; constructor; [exact IH |].
  rewrite Forall_map. eapply Forall_impl; [| exact Ha].
  intros b Hab. unfold canon, num_le in *. now rewrite !Qred_correct.
Qed.

(** Ascending lists of fractions in lowest terms that hold the same
    fractions are the same list. *)
Lemma ordered_reduced_unique (l : list Q) :
  forall l',
    StronglySorted Qle l -> StronglySorted Qle l' -> Permutation l l' ->
    Forall (fun q => Qred q = q) l -> l = l'.
Proof.
  induction l as [| a t IH]; intros l' Hs Hs' Hp Hr.
  - now apply Permutation_nil in Hp.
  - destruct l' as [| a' t'].
    + apply Permutation_sym, Permutation_nil in Hp. discriminate.
    + inversion Hs as [| ? ? Hst Hat]; subst.
      inversion Hs' as [| ? ? Hst' Hat']; subst.
      inversion Hr as [| ? ? Hra Hrt]; subst.
      assert (Hin' : In a' (a :: t))
        by (apply (Permutation_in a' (Permutation_sym Hp)); now left).
      assert (Hin : In a (a' :: t'))
        by (apply (Permutation_in a Hp); now left).
      assert (Hle : (a <= a')%Q).
      { destruct Hin' as [<- | Hin']; [apply Qle_refl |].
        rewrite Forall_forall in Hat. now apply Hat. }
      assert (Hge : (a' <= a)%Q).
      { destruct Hin as [<- | Hin]; [apply Qle_refl |].
        rewrite Forall_forall in Hat'. now apply Hat'. }
      assert (Hra' : Qred a' = a').
      { rewrite Forall_forall in Hr. now apply Hr. }
      assert (E : a = a').
      { rewrite <- Hra, <- Hra'. apply Qred_complete. now apply Qle_antisym. }
      subst a'. f_equal. apply IH; try assumption.
      now apply Permutation_cons_inv with a.
Qed.

Lemma sorted_values_unique (l l' : list num) :
  Permutation l l' -> map canon (sorted l) = map canon (sorted l').
Proof.
  intros Hp. apply ordered_reduced_unique.
  - apply canon_ordered, sorted_strongly_ordered.
  - apply canon_ordered, sorted_strongly_ordered.
  - apply Permutation_map.
    apply perm_trans with l; [apply Permutation_sym, sorted_perm |].
    apply perm_trans with l'; [exact Hp | apply sorted_perm].
  - rewrite Forall_map, Forall_forall. intros x _. unfold canon.
    apply Qred_complete, Qred_correct.
Qed.

Lemma round_half_even_value (q q' : Q) :
  (q == q')%Q -> round_half_even q = round_half_even q'.
Proof.
  intros H. unfold round_half_even. rewrite (Qfloor_comp _ _ H).
  assert (C : Qcompare (q - inject_Z (Qfloor q')) (1 # 2)
              = Qcompare (q' - inject_Z (Qfloor q')) (1 # 2)).
  { apply Qcompare_comp; [| reflexivity]. now rewrite H. }
  now rewrite C.
Qed.

Lemma round2_value (q q' : Q) : (q == q')%Q -> round2 q = round2 q'.
Proof.
  intros H. unfold round2.
  assert (E : round_half_even (q * 100) = round_half_even (q' * 100))
    by (apply round_half_even_value; now rewrite H).
  now rewrite E.
Qed.

Lemma round2_whole (z : Z) : (round2 (inject_Z z) == inject_Z z)%Q.
Proof.
  assert (E : (inject_Z z == inject_Z (z * 100) / 100)%Q)
    by (rewrite inject_Z_mult; field).
  rewrite (round2_value _ _ E), round2_hundredths. now rewrite <- E.
Qed.

Lemma py_round2_value (x y : num) :
  (py_float x == py_float y)%Q -> (py_float (py_round2 x) == py_float (py_round2 y))%Q.
Proof.
  destruct x as [z | q], y as [z' | q']; simpl; intros H.
  - exact H.
  - rewrite <- (round2_value _ _ H). now rewrite round2_whole.
  - rewrite (round2_value _ _ H). now rewrite round2_whole.
  - now rewrite (round2_value _ _ H).
Qed.

(** X15: the median does not depend on the order of the values: the same
    values in another order give the same median, but for the type of the
    number (1 or 1.0) when an [int] and a [float] of the same value are
    among them. *)
Theorem median_order_independent (vals vals' : list (option num)) :
  Permutation vals vals' -> same_value (median vals) (median vals').
Proof.
  intros Hp. apply non_null_perm in Hp. apply sorted_values_unique in Hp.
  unfold median.
  set (s := sorted (non_null vals)) in *. set (s' := sorted (non_null vals')) in *.
  assert (Hlen : List.length s = List.length s')
    by (rewrite <- (length_map canon s), Hp; apply length_map).
  assert (Hnth : forall i, (py_float (nth i s (NInt 0)) == py_float (nth i s' (NInt 0)))%Q).
  { intros i. apply canon_eq.
    rewrite <- (map_nth canon s), <- (map_nth canon s'). now rewrite Hp. }
  destruct s as [| x t], s' as [| x' t']; try discriminate Hlen; [exact I |].
  rewrite <- Hlen.
  destruct (Nat.eqb (List.length (x :: t) mod 2) 0); unfold same_value.
  - apply py_round2_value. unfold average. simpl py_float.
    now rewrite (Hnth (List.length (x :: t) / 2 - 1)%nat),
                (Hnth (List.length (x :: t) / 2)%nat).
  - apply py_round2_value, Hnth.
Qed.

Lemma median_order_independent_witness :
  Permutation [Some (NInt 1); None; Some (NFloat 1); Some (NInt 2)]
              [None; Some (NFloat 1); Some (NInt 2); Some (NInt 1)]
  /\ median [Some (NInt 1); None; Some (NFloat 1); Some (NInt 2)] = Some (NFloat 1)
  /\ median [None; Some (NFloat 1); Some (NInt 2); Some (NInt 1)] = Some (NInt 1)
  /\ same_value (median [Some (NInt 1); None; Some (NFloat 1); Some (NInt 2)])
                (median [None; Some (NFloat 1); Some (NInt 2); Some (NInt 1)]).
Proof.
  assert (Hp : Permutation [Some (NInt 1); None; Some (NFloat 1); Some (NInt 2)]
                           [None; Some (NFloat 1); Some (NInt 2); Some (NInt 1)]).
  { apply perm_trans with [None; Some (NInt 1); Some (NFloat 1); Some (NInt 2)];
      [apply perm_swap |].
    apply perm_skip.
    apply perm_trans with [Some (NFloat 1); Some (NInt 1); Some (NInt 2)];
      [apply perm_swap |].
    apply perm_skip, perm_swap. }
  split; [exact Hp |].
  split; [vm_compute; reflexivity |].
  split; [vm_compute; reflexivity |].
  apply median_order_independent. exact Hp.
Defined.

(** ** The links of a sector outlook *)





